(** * SpecMaker: the rule-based extraction pipeline of [app.py]

    A shallow embedding of the rule-based (non-GPT) part of [src/app.py]:
    [_truncate], [_normalize_korean_bullets], [guess_title_from_pdf],
    [extract_kv_candidates], [extract_bullets], [_matches_key] and
    [rules_build_fields], followed by the properties of the
    specification that concern them.

    Python's [str] is a sequence of Unicode code points; it is modelled
    as [list N].  Python's [int] is modelled as [Z]. *)

From Stdlib Require Import QArith.
From Stdlib Require Import Ascii String NArith ZArith Lia.
From stdpp Require Import base list gmap sets strings.

Local Open Scope N_scope.

(** ** Text *)

Abbreviation pstr := (list N).

(** The source file is UTF-8 encoded; [u8] decodes a literal of the source
    into its code points, so that literals can be written as they are in
    [app.py]. *)
Fixpoint utf8_go (s : string) (pending : nat) (acc : N) : list N :=
  match s with
  | EmptyString => []
  | String a s' =>
      let b := N_of_ascii a in
      match pending with
      | O => if b <? 128 then b :: utf8_go s' 0%nat 0
             else if b <? 224 then utf8_go s' 1%nat (b - 192)
             else if b <? 240 then utf8_go s' 2%nat (b - 224)
             else utf8_go s' 3%nat (b - 240)
      | S O => (acc * 64 + (b - 128)) :: utf8_go s' 0%nat 0
      | S p => utf8_go s' p (acc * 64 + (b - 128))
      end
  end.

Definition u8 (s : string) : list N := utf8_go s 0%nat 0.

Definition c_lf : N := 10.
Definition c_space : N := 32.
Definition c_dquote : N := 34.
Definition c_squote : N := 39.
Definition c_star : N := 42.
Definition c_comma : N := 44.
Definition c_hyphen : N := 45.
Definition c_colon : N := 58.
Definition c_middot : N := 183.      (* U+00B7 *)
Definition c_endash : N := 8211.     (* U+2013 *)
Definition c_emdash : N := 8212.     (* U+2014 *)
Definition c_bullet : N := 8226.     (* U+2022 *)
Definition c_ellipsis : N := 8230.   (* U+2026 *)
Definition c_idcomma : N := 12289.   (* U+3001 *)

(** ** The parts of Python's [str] that the pipeline uses *)

Definition inb (c : N) (cs : list N) : bool := existsb (N.eqb c) cs.

Definition in_range (lo hi c : N) : bool := (lo <=? c) && (c <=? hi).

(** [str.isspace()] on one character, which is also what [str.strip()]
    removes and what [\s] matches in a [str] pattern. *)
Definition is_space (c : N) : bool :=
  in_range 9 13 c || in_range 28 32 c || (c =? 133) || (c =? 160)
  || (c =? 5760) || in_range 8192 8202 c || in_range 8232 8233 c
  || (c =? 8239) || (c =? 8287) || (c =? 12288).

(** The line boundaries of [str.splitlines()]. *)
Definition is_linebreak (c : N) : bool :=
  in_range 10 13 c || in_range 28 30 c || (c =? 133) || in_range 8232 8233 c.

Fixpoint lstrip_with (p : N -> bool) (s : list N) : list N :=
  match s with
  | [] => []
  | c :: s' => if p c then lstrip_with p s' else s
  end.

Definition rstrip_with (p : N -> bool) (s : list N) : list N :=
  rev (lstrip_with p (rev s)).

Definition strip_with (p : N -> bool) (s : list N) : list N :=
  rstrip_with p (lstrip_with p s).

(** [s.strip()], [s.rstrip()] *)
Definition strip (s : list N) : list N := strip_with is_space s.
Definition rstrip (s : list N) : list N := rstrip_with is_space s.

(** [s.lstrip(chars)], [s.strip(chars)] *)
Definition lstrip_chars (chars s : list N) : list N :=
  lstrip_with (fun c => inb c chars) s.
Definition strip_chars (chars s : list N) : list N :=
  strip_with (fun c => inb c chars) s.

(** [s.startswith(pre)] *)
Fixpoint startswith (pre s : list N) : bool :=
  match pre, s with
  | [], _ => true
  | p :: pre', c :: s' => (p =? c) && startswith pre' s'
  | _ :: _, [] => false
  end.

(** [sub in s] *)
Fixpoint contains (sub s : list N) : bool :=
  startswith sub s ||
  match s with
  | [] => false
  | _ :: s' => contains sub s'
  end.

(** [s.replace(old, new)] for a one-character [old] *)
Definition replace1 (old : N) (new : list N) (s : list N) : list N :=
  flat_map (fun c => if c =? old then new else [c]) s.

(** [s.split(sep, 1)] for a non-empty [sep] that occurs in [s]: the text
    before and after the first occurrence; [None] when [sep] is absent. *)
Fixpoint split_once (sep s : list N) : option (list N * list N) :=
  if startswith sep s then Some ([], skipn (length sep) s)
  else match s with
       | [] => None
       | c :: s' =>
           match split_once sep s' with
           | Some (a, b) => Some (c :: a, b)
           | None => None
           end
       end.

(** [s[:n]] for a Python [int] [n]: a negative [n] counts from the end. *)
Definition slice_to {A} (n : Z) (s : list A) : list A :=
  if (0 <=? n)%Z then firstn (Z.to_nat n) s
  else firstn (length s - Z.to_nat (- n))%nat s.

Definition len {A} (s : list A) : Z := Z.of_nat (length s).

(** [s.splitlines()]: [cur] is the current line, reversed. *)
Fixpoint splitlines_go (cur s : list N) : list (list N) :=
  match s with
  | [] => match cur with [] => [] | _ => [rev cur] end
  | c :: s' =>
      if is_linebreak c then
        rev cur ::
        match s' with
        | d :: s'' => if (c =? 13) && (d =? 10) then splitlines_go [] s''
                      else splitlines_go [] s'
        | [] => []
        end
      else splitlines_go (c :: cur) s'
  end.

Definition splitlines (s : list N) : list (list N) := splitlines_go [] s.

(** ** [_truncate] *)

(** The text is stripped, each line feed is replaced by a space, and the
    slice [[:max(0, n)]] is taken. *)
Definition _truncate (s : list N) (n : Z) : list N :=
  slice_to (Z.max 0 n) (replace1 c_lf [c_space] (strip s)).

(** ** Unicode tables

    [unicodedata], [str.lower] and the character categories behind [\d]
    and [\b] come from the Unicode database of the Python interpreter, not
    from the repository.  They are parameters of the development. *)
Class Unicode := {
  nfkc : list N -> list N;     (* unicodedata.normalize("NFKC", s) *)
  lower : list N -> list N;    (* s.lower() *)
  is_digit : N -> bool;        (* \d on one character *)
  is_word : N -> bool          (* \w on one character *)
}.

(** What the proofs below use of these tables. *)
Class UnicodeLaws (U : Unicode) : Prop := {
  (* NFKC neither decomposes nor composes a leading hyphen and space *)
  nfkc_keeps_marker : forall t, exists t',
      nfkc (c_hyphen :: c_space :: t) = c_hyphen :: c_space :: t';
  (* the hyphen is not a decimal digit *)
  hyphen_not_digit : is_digit c_hyphen = false
}.

(** ** Regular expressions

    A backtracking matcher for the fragment of [re] that the patterns of
    [app.py] use: classes, greedy repetition of a class, sequence, ordered
    alternation and the word boundary. *)
Inductive regex :=
| REps
| RFail
| RSet (p : N -> bool)
| RMany (p : N -> bool) (min : nat)
| RSeq (a b : regex)
| RAlt (a b : regex)
| RWordB.

Section Regex.
Context {U : Unicode}.

Definition word_at (c : option N) : bool :=
  match c with Some c => is_word c | None => false end.

(** [prev] is the character before the current position, [acc] the text
    matched so far (reversed), [k] what remains to be matched. *)
Definition rcont := option N -> list N -> list N -> option (list N).

Fixpoint many_greedy (p : N -> bool) (min : nat) (prev : option N)
    (acc s : list N) (k : rcont) : option (list N) :=
  match s with
  | c :: s' =>
      if p c then
        match many_greedy p (pred min) (Some c) (c :: acc) s' k with
        | Some r => Some r
        | None => match min with O => k prev acc s | S _ => None end
        end
      else match min with O => k prev acc s | S _ => None end
  | [] => match min with O => k prev acc s | S _ => None end
  end.

Fixpoint rmatch (r : regex) (prev : option N) (acc s : list N) (k : rcont)
    : option (list N) :=
  match r with
  | REps => k prev acc s
  | RFail => None
  | RSet p =>
      match s with
      | c :: s' => if p c then k (Some c) (c :: acc) s' else None
      | [] => None
      end
  | RMany p min => many_greedy p min prev acc s k
  | RSeq a b => rmatch a prev acc s (fun prev' acc' s' => rmatch b prev' acc' s' k)
  | RAlt a b =>
      match rmatch a prev acc s k with
      | Some m => Some m
      | None => rmatch b prev acc s k
      end
  | RWordB =>
      if xorb (word_at prev) (word_at (head s)) then k prev acc s else None
  end.

(** [rx.search(s)]: the text of the leftmost match, if any. *)
Fixpoint re_search_go (r : regex) (prev : option N) (s : list N)
    : option (list N) :=
  match rmatch r prev [] s (fun _ acc _ => Some (rev acc)) with
  | Some m => Some m
  | None =>
      match s with
      | [] => None
      | c :: s' => re_search_go r (Some c) s'
      end
  end.

Definition re_search (r : regex) (s : list N) : option (list N) :=
  re_search_go r None s.

End Regex.

(** A lower-case ASCII letter [c] of a pattern compiled with
    [re.IGNORECASE] matches [x]: besides the two cases of the letter,
    U+0130 and U+0131 for [i], U+212A for [k], U+017F for [s]. *)
Definition ci (c x : N) : bool :=
  (x =? c) || (x =? c - 32)
  || ((c =? 105) && in_range 304 305 x)
  || ((c =? 107) && (x =? 8490))
  || ((c =? 115) && (x =? 383)).

Definition rword_i (w : list N) : regex :=
  fold_right (fun c r => RSeq (RSet (ci c)) r) REps w.

Definition ralt (rs : list regex) : regex := fold_right RAlt RFail rs.

(** [re.sub(r"\s+", " ", s)] *)
Fixpoint collapse_go (in_ws : bool) (s : list N) : list N :=
  match s with
  | [] => []
  | c :: s' =>
      if is_space c then
        if in_ws then collapse_go true s' else c_space :: collapse_go true s'
      else c :: collapse_go false s'
  end.

Definition collapse_ws (s : list N) : list N := collapse_go false s.

(** [re.sub] of the pattern [[...]+$] by the empty string, for a class
    [p]: the run of [p] at the end of [s] is removed; [$] also matches
    before a final line feed. *)
Definition re_sub_tail (p : N -> bool) (s : list N) : list N :=
  match rev s with
  | [] => []
  | c :: r =>
      if p c then rev (lstrip_with p (c :: r))
      else if c =? c_lf then rev (c_lf :: lstrip_with p r)
      else s
  end.

(** ** [_normalize_korean_bullets] *)

(** [_HANGUL_RX]: one Hangul syllable, U+AC00 to U+D7A3 *)
Definition hangul (c : N) : bool := in_range 44032 55203 c.

(** [_UNIT_RX] *)
Definition unit_tokens : list (list N) :=
  map u8 ["ghz"; "mhz"; "khz"; "gb"; "mb"; "tb"; "w"; "v"; "a"; "mm"; "cm";
          "inch"; "gbit"; "gbe"; "pcie"; "usb"; "sata"; "nvme"; "ddr";
          "rdimm"; "udimm"; "ecc"; "wifi"; "bt"; "poe"]%string.

Definition _UNIT_RX : regex :=
  RSeq RWordB (RSeq (ralt (map rword_i unit_tokens)) RWordB).

(** The class of [_PUNCT_TRIM_RX] (double quote, single quote, middle dot,
    bullet, star, bullet) and the class [[、,…]] of the second trim. *)
Definition punct_class (c : N) : bool :=
  inb c [c_dquote; c_squote; c_middot; c_bullet; c_star; c_bullet].
Definition comma_class (c : N) : bool :=
  inb c [c_idcomma; c_comma; c_ellipsis].

Definition is_empty (s : list N) : bool :=
  match s with [] => true | _ => false end.

Section Normalize.
Context {U : Unicode}.

(** The prefix repair of the loop body. *)
Definition fix_prefix (s : list N) : list N :=
  let s := if startswith [c_hyphen] s || startswith [c_bullet] s
              || startswith [c_star] s
           then strip (lstrip_chars [c_bullet; c_star; c_space] s)
           else s in
  if startswith [c_hyphen; c_space] s then s
  else [c_hyphen; c_space] ++ s.

(** The clean-up of spaces and ornaments of the loop body. *)
Definition tidy (s : list N) : list N :=
  let s := nfkc s in
  let s := collapse_ws s in
  let s := replace1 c_emdash [c_hyphen]
             (replace1 c_endash [c_hyphen] (replace1 c_bullet [] s)) in
  let s := strip (re_sub_tail punct_class s) in
  strip (re_sub_tail comma_class s).

(** The length cut of the loop body. *)
Definition cut (max_len : Z) (s : list N) : list N :=
  if (len s >? max_len)%Z then rstrip (slice_to max_len s) else s.

Definition has_kr (s : list N) : bool := existsb hangul s.
Definition has_num_unit (s : list N) : bool :=
  existsb is_digit s || bool_decide (is_Some (re_search _UNIT_RX s)).

(** One iteration of the loop up to the test on [seen]: [None] when the
    iteration ends in [continue], else the cleaned item.  The items are
    strings; an item [None], which the source reads as the empty string,
    is the empty item here. *)
Definition bullet_item (max_len : Z) (raw : list N) : option (list N) :=
  let s := strip raw in
  if is_empty s then None
  else
    let s := cut max_len (tidy (fix_prefix s)) in
    if negb (has_kr s) && negb (has_num_unit s) then None else Some s.

Fixpoint normalize_loop (max_len : Z) (items : list (list N))
    (out : list (list N)) (seen : gset (list N)) : list (list N) :=
  match items with
  | [] => out
  | raw :: rest =>
      match bullet_item max_len raw with
      | None => normalize_loop max_len rest out seen
      | Some s =>
          let key := lower s in
          if decide (key ∈ seen) then normalize_loop max_len rest out seen
          else normalize_loop max_len rest (out ++ [s]) ({[ key ]} ∪ seen)
      end
  end.

Definition _normalize_korean_bullets (items : list (list N)) (max_len : Z)
    : list (list N) :=
  normalize_loop max_len items [] ∅.

End Normalize.

(** ** Tables for text without case pairs beyond ASCII

    On text made of ASCII characters and Hangul syllables, NFKC is the
    identity, [lower] maps [A-Z] to [a-z], the decimal digits are [0-9] and
    the word characters are the ASCII letters and digits, the underscore
    and the syllables.  These tables are used to run the model on such
    text. *)
Definition lower_ascii (c : N) : N := if in_range 65 90 c then c + 32 else c.

Definition plain_tables : Unicode := {|
  nfkc := fun s => s;
  lower := map lower_ascii;
  is_digit := in_range 48 57;
  is_word := fun c => in_range 48 57 c || in_range 65 90 c || (c =? 95)
                      || in_range 97 122 c || hangul c
|}.

(** ** Harvesting key/value pairs and bullets *)

Definition FEATURE_MAX : Z := 24.

Definition REQUIRED_KEYS : list (list N) :=
  map u8 ["CPU"; "GPU"; "Memory"; "Storage"; "Power"; "I/O"; "LAN";
          "Dimensions"; "Operating Temperature"]%string.

(** The dictionary [KEY_ALIASES], in the order in which it is written. *)
Definition KEY_ALIASES : list (list N * list (list N)) :=
  map (fun '(k, toks) => (u8 k, map u8 toks))
  [ ("CPU", ["CPU"; "Processor"; "프로세서"]);
    ("GPU", ["GPU"; "Graphics"; "그래픽"; "VGA"]);
    ("Memory", ["Memory"; "RAM"; "메모리"; "DRAM"; "DDR"; "RDIMM"; "UDIMM";
                "ECC"]);
    ("Storage", ["Storage"; "스토리지"; "SSD"; "HDD"; "NVMe"; "SATA"; "M.2";
                 "U.2"]);
    ("Power", ["Power"; "PSU"; "전원"; "AC"; "DC"; "Adapter"; "어댑터"; "전력";
               "입력"]);
    ("I/O", ["I/O"; "IO"; "Interface"; "입출력"; "포트"; "USB"; "PCIe"; "HDMI";
             "DP"; "VGA"; "COM"; "RS-232"; "RS-485"]);
    ("LAN", ["LAN"; "Ethernet"; "GbE"; "10GbE"; "2.5GbE"; "RJ-45";
             "네트워크"]);
    ("Dimensions", ["Dimensions"; "크기"; "규격"; "외형"; "치수"; "Size";
                    "Form Factor"; "W x D x H"; "WxDxH"; "mm"; "cm"; "inch"]);
    ("Operating Temperature",
       ["Operating Temperature"; "Operating Temp"; "동작 온도"; "작동 온도";
        "온도"; "Temperature range"; "Operating range"]) ]%string.

Definition BULLET_MARKERS : list N :=
  [c_bullet; 9679; c_hyphen; 9642; 8227; c_endash; c_emdash; c_middot; c_star].

(** [KEY_ALIASES.get(key, [key])] *)
Fixpoint aliases_get (key : list N) (tbl : list (list N * list (list N)))
    : list (list N) :=
  match tbl with
  | [] => [key]
  | (k, toks) :: tbl' =>
      if bool_decide (k = key) then toks else aliases_get key tbl'
  end.

(** The loop of [extract_kv_candidates] over the lines. *)
Fixpoint kv_loop (max_items : Z) (lines : list (list N))
    (out : list (list N * list N)) : list (list N * list N) :=
  match lines with
  | [] => out
  | line :: rest =>
      let s := strip line in
      if is_empty s || (len s >? 300)%Z then kv_loop max_items rest out
      else
        match (if contains [c_colon] s then split_once [c_colon] s
               else if contains [c_space; c_hyphen; c_space] s
                    then split_once [c_space; c_hyphen; c_space] s
                    else None) with
        | None => kv_loop max_items rest out
        | Some (k, v) =>
            let k := strip k in
            let v := strip v in
            let out := if (1 <=? len k)%Z && (len k <=? 60)%Z
                          && negb (is_empty v)
                       then out ++ [(k, v)] else out in
            if (len out >=? max_items)%Z then out
            else kv_loop max_items rest out
        end
  end.

Definition extract_kv_candidates (text : list N) (max_items : Z)
    : list (list N * list N) :=
  kv_loop max_items (splitlines text) [].

(** The loop of [extract_bullets] over the lines. *)
Fixpoint bullets_loop (max_items : Z) (lines : list (list N))
    (feats : list (list N)) : list (list N) :=
  match lines with
  | [] => feats
  | line :: rest =>
      let s := strip line in
      match s with
      | [] => bullets_loop max_items rest feats
      | c0 :: _ =>
          let feats :=
            if inb c0 BULLET_MARKERS
               || existsb (fun m => startswith [m; c_space] s) BULLET_MARKERS
            then
              let s2 := strip_chars
                          [c_space; c_hyphen; c_endash; c_emdash; c_middot;
                           c_colon; c_star]
                          (lstrip_chars BULLET_MARKERS s) in
              if is_empty s2 then feats else feats ++ [s2]
            else feats in
          if (len feats >=? max_items)%Z then feats
          else bullets_loop max_items rest feats
      end
  end.

Definition extract_bullets (text : list N) (max_items : Z) : list (list N) :=
  bullets_loop max_items (splitlines text) [].

(** A loop either leaves through [return] with the list it had, or falls
    through to the code after it. *)
Inductive flow (A : Type) :=
| Returned (feats : list (list N))
| Continues (st : A).
Arguments Returned {A} feats.
Arguments Continues {A} st.

Section Rules.
Context {U : Unicode}.

Definition _matches_key (alias_key k v : list N) : bool :=
  let kk := lower k in
  let vv := lower v in
  existsb (fun tok => let t := lower tok in contains t kk || contains t vv)
          (aliases_get alias_key KEY_ALIASES).

(** ** [rules_build_fields]: the feature list *)

(** [f"- {key}: {v}"] and [f"- {b}"] *)
Definition kv_line (key v : list N) : list N :=
  [c_hyphen; c_space] ++ key ++ [c_colon; c_space] ++ v.
Definition bullet_line (b : list N) : list N :=
  if startswith [c_hyphen] b then b else [c_hyphen; c_space] ++ b.

(** The inner loop of the category pass: the first pair, not yet used,
    that matches [key], with its index. *)
Fixpoint first_match (key : list N) (i : nat) (kv : list (list N * list N))
    (used : gset nat) : option (nat * list N) :=
  match kv with
  | [] => None
  | (k, v) :: kv' =>
      if decide (i ∈ used) then first_match key (S i) kv' used
      else if _matches_key key k v then Some (i, v)
      else first_match key (S i) kv' used
  end.

Fixpoint category_pass (limit : Z) (keys : list (list N))
    (kv : list (list N * list N)) (feats : list (list N)) (used : gset nat)
    : flow (list (list N) * gset nat) :=
  match keys with
  | [] => Continues (feats, used)
  | key :: keys' =>
      let '(feats, used) :=
        match first_match key 0 kv used with
        | Some (i, v) => (feats ++ [kv_line key v], {[ i ]} ∪ used)
        | None => (feats, used)
        end in
      if (len feats >=? limit)%Z then Returned feats
      else category_pass limit keys' kv feats used
  end.

Fixpoint generic_pass (limit : Z) (i : nat) (kv : list (list N * list N))
    (used : gset nat) (feats : list (list N)) : flow (list (list N)) :=
  match kv with
  | [] => Continues feats
  | (k, v) :: kv' =>
      if decide (i ∈ used) then generic_pass limit (S i) kv' used feats
      else
        let pair := kv_line k v in
        let feats := if bool_decide (pair ∈ feats) then feats
                     else feats ++ [pair] in
        if (len feats >=? limit)%Z then Returned feats
        else generic_pass limit (S i) kv' used feats
  end.

Fixpoint bullet_pass (limit : Z) (bullets : list (list N))
    (feats : list (list N)) : list (list N) :=
  match bullets with
  | [] => feats
  | b :: bullets' =>
      let bl := bullet_line b in
      let feats := if bool_decide (bl ∈ feats) then feats
                   else feats ++ [bl] in
      if (len feats >=? limit)%Z then feats
      else bullet_pass limit bullets' feats
  end.

(** The list [feats] as it is when it is handed to the normalizer. *)
Definition gather (kv : list (list N * list N)) (bullets : list (list N))
    (limit : Z) : list (list N) :=
  match category_pass limit REQUIRED_KEYS kv [] ∅ with
  | Returned feats => feats
  | Continues (feats, used) =>
      match generic_pass limit 0 kv used feats with
      | Returned feats => feats
      | Continues feats => bullet_pass limit bullets feats
      end
  end.

Definition rules_features (text : list N) (limit : Z) : list (list N) :=
  let kv := extract_kv_candidates text 500 in
  let bullets := extract_bullets text 300 in
  slice_to limit (_normalize_korean_bullets (gather kv bullets limit) 64).

End Rules.

(** ** [guess_title_from_pdf] *)

(** [MODEL_RX], compiled with [re.IGNORECASE]: under that flag [[A-Z]]
    also matches the lower-case letters and U+0130, U+0131, U+017F and
    U+212A. *)
Definition az_i (c : N) : bool :=
  in_range 65 90 c || in_range 97 122 c || in_range 304 305 c
  || (c =? 383) || (c =? 8490).
Definition az09_i (c : N) : bool := az_i c || in_range 48 57 c.
Definition model_tail (c : N) : bool :=
  az09_i c || (c =? c_hyphen) || (c =? 95) || (c =? 47).

Definition MODEL_RX : regex :=
  RSeq RWordB
   (RSeq (RAlt (RSeq (RMany az_i 2) (RMany model_tail 1))
               (RSeq (RMany az09_i 2)
                     (RSeq (RSet (N.eqb c_hyphen)) (RMany model_tail 1))))
         RWordB).

(** What PyMuPDF makes of the bytes of a PDF: the metadata dictionary and,
    for each page, the blocks, lines and spans of [get_text("dict")].  A
    missing or [None] entry of a span is [None]; a finite [float] is the
    rational it denotes. *)
Record span := { span_text : option (list N); span_size : option Q }.

Record fitz_document := {
  doc_metadata : option (gmap string (list N));
  doc_pages : list (list (list (list span)))
}.

(** The argument [pdf_bytes] is represented by the document that
    [fitz.open] returns for it, or by [None] when [fitz.open] raises. *)
Abbreviation pdf := (option fitz_document).

(** [tops.sort(key=lambda x: x[0], reverse=True)]: by decreasing size,
    spans of equal size keeping their order. *)
Fixpoint insert_desc (x : Q * list N) (l : list (Q * list N))
    : list (Q * list N) :=
  match l with
  | [] => [x]
  | y :: l' => if Qle_bool (fst y) (fst x) then x :: l
               else y :: insert_desc x l'
  end.

Definition sort_desc (l : list (Q * list N)) : list (Q * list N) :=
  fold_right insert_desc [] l.

Section Title.
Context {U : Unicode}.

(** The first [try] block. *)
Definition title_from_metadata (doc : fitz_document) : option (list N) :=
  let meta := default ∅ (doc_metadata doc) in
  let try_key (k : string) : option (list N) :=
    let v := strip (default [] (meta !! k)) in
    if negb (is_empty v) && (2 <=? len v)%Z && (len v <=? 100)%Z then
      Some (strip (default v (re_search MODEL_RX v)))
    else None in
  match try_key "title"%string with
  | Some t => Some t
  | None => try_key "subject"%string
  end.

(** The list [tops] of the second [try] block, before it is sorted. *)
Definition collect_tops (doc : fitz_document) : list (Q * list N) :=
  flat_map (fun page =>
    flat_map (fun b =>
      flat_map (fun l =>
        flat_map (fun s =>
          let txt := strip (default [] (span_text s)) in
          let size := default 0%Q (span_size s) in
          if negb (is_empty txt) && Qle_bool 8 size then [(size, txt)]
          else []) l) b) page)
    (firstn 2 (doc_pages doc)).

Fixpoint first_model (ts : list (Q * list N)) : option (list N) :=
  match ts with
  | [] => None
  | (_, t) :: ts' =>
      match re_search MODEL_RX t with
      | Some m => Some (strip m)
      | None => first_model ts'
      end
  end.

(** The second [try] block. *)
Definition title_from_spans (doc : fitz_document) : option (list N) :=
  match sort_desc (collect_tops doc) with
  | [] => None
  | top :: rest =>
      match first_model (firstn 50 (top :: rest)) with
      | Some t => Some t
      | None => Some (slice_to 80 (snd top))
      end
  end.

Fixpoint first_line (lines : list (list N)) : option (list N) :=
  match lines with
  | [] => None
  | line :: rest =>
      let s := strip line in
      if is_empty s then first_line rest else Some (slice_to 80 s)
  end.

Definition placeholder : list N := u8 "제품명".

Definition guess_title_from_pdf (pdf_bytes : pdf) (text : list N) : list N :=
  match pdf_bytes ≫= title_from_metadata with
  | Some t => t
  | None =>
  match pdf_bytes ≫= title_from_spans with
  | Some t => t
  | None =>
  match re_search MODEL_RX text with
  | Some m => slice_to 80 m
  | None =>
  match first_line (splitlines text) with
  | Some s => s
  | None => placeholder
  end end end end.

(** ** [rules_build_fields] *)

(** The tuple that [rules_build_fields] returns. *)
Record fields := {
  name : list N;
  description : list N;
  summary : list N;
  features : list (list N)
}.

Definition rules_build_fields (pdf_bytes : pdf) (text : list N)
    (desc_max summary_max limit : Z) : fields :=
  {| name := guess_title_from_pdf pdf_bytes text;
     description := _truncate text desc_max;
     summary := _truncate text summary_max;
     features := rules_features text limit |}.

End Title.

(** ** The invariant of a feature bullet *)

(** The item starts with a hyphen and a space. *)
Definition marked (s : list N) : Prop :=
  exists t, s = c_hyphen :: c_space :: t.

Definition bare_or_marked (s : list N) : Prop :=
  s = [c_hyphen] \/ marked s.

(** The item holds a Hangul syllable, a digit or a unit token: the test
    on the content at the end of the loop body. *)
Definition informative {U : Unicode} (s : list N) : Prop :=
  has_kr s = true \/ existsb is_digit s = true
  \/ is_Some (re_search _UNIT_RX s).

(** ** Blank text and a PDF without a title *)

(** The text is empty or made of white space only. *)
Definition blank (s : list N) : Prop := Forall (fun c => is_space c = true) s.

(** Neither [try] block of [guess_title_from_pdf] returns. *)
Definition no_title_in_pdf {U : Unicode} (pdf_bytes : pdf) : Prop :=
  pdf_bytes ≫= title_from_metadata = None
  /\ pdf_bytes ≫= title_from_spans = None.

(** ** The raw feature list *)

(** The key set [seen] after the loop of the normalizer has run over
    [items]. *)
Fixpoint normalize_seen {U : Unicode} (max_len : Z) (items : list (list N))
    (seen : gset (list N)) : gset (list N) :=
  match items with
  | [] => seen
  | raw :: rest =>
      match bullet_item max_len raw with
      | None => normalize_seen max_len rest seen
      | Some s => normalize_seen max_len rest ({[ lower s ]} ∪ seen)
      end
  end.

(** The pairs whose index, counted from [i], is not in [used]. *)
Fixpoint unused (i : nat) (kv : list (list N * list N)) (used : gset nat)
    : list (list N * list N) :=
  match kv with
  | [] => []
  | p :: kv' =>
      if decide (i ∈ used) then unused (S i) kv' used
      else p :: unused (S i) kv' used
  end.

(** [c] is the bullet of the category [key]: its value is the value of a
    harvested pair that matches [key]. *)
Definition category_bullet {U : Unicode} (kv : list (list N * list N))
    (key c : list N) : Prop :=
  exists k v, (k, v) ∈ kv /\ _matches_key key k v = true /\ c = kv_line key v.

(** [g] is the line of a harvested pair under its own key. *)
Definition generic_bullet (kv : list (list N * list N)) (g : list N) : Prop :=
  exists k v, (k, v) ∈ kv /\ g = kv_line k v.

(** [f] is what the loop body of the normalizer makes of an item of
    [items]. *)
Definition cleaned_from {U : Unicode} (items : list (list N)) (f : list N)
    : Prop :=
  exists raw, raw ∈ items /\ bullet_item 64 raw = Some f.

(** ** The choices of the category pass *)

(** [o] is the choice made for [key] when the pairs at the indices of
    [used] are taken: the index of the first pair, not yet used, that
    matches [key], or [None] when no pair that is not yet used matches. *)
Definition first_unused_match {U : Unicode} (kv : list (list N * list N))
    (used : gset nat) (key : list N) (o : option nat) : Prop :=
  match o with
  | Some i =>
      (i ∉ used)
      /\ (exists k v, kv !! i = Some (k, v) /\ _matches_key key k v = true)
      /\ forall j k v, (j < i)%nat -> j ∉ used -> kv !! j = Some (k, v) ->
                       _matches_key key k v = false
  | None =>
      forall j k v, j ∉ used -> kv !! j = Some (k, v) ->
                    _matches_key key k v = false
  end.

(** [sel] holds one choice for each key of [keys], made in the order of
    the table, a pair chosen for one key being used for the keys after
    it. *)
Fixpoint chosen {U : Unicode} (kv : list (list N * list N)) (used : gset nat)
    (keys : list (list N)) (sel : list (option nat)) : Prop :=
  match keys, sel with
  | [], [] => True
  | key :: keys', o :: sel' =>
      first_unused_match kv used key o
      /\ chosen kv (match o with Some i => {[ i ]} ∪ used | None => used end)
                keys' sel'
  | _, _ => False
  end.

(** The indices that the choices take. *)
Definition taken (sel : list (option nat)) : gset nat :=
  list_to_set (omap id sel).

(** The bullets of the choices: [- {key}: {v}] with the value of the pair
    chosen for [key], nothing for a key without a choice. *)
Fixpoint category_bullets (kv : list (list N * list N))
    (keys : list (list N)) (sel : list (option nat)) : list (list N) :=
  match keys, sel with
  | key :: keys', o :: sel' =>
      match o ≫= (kv !!.) with
      | Some (_, v) => kv_line key v :: category_bullets kv keys' sel'
      | None => category_bullets kv keys' sel'
      end
  | _, _ => []
  end.

(** The lines [- {k}: {v}] of the pairs that no choice takes, in the
    order of the pairs, without those that are among [cats] already. *)
Definition generic_lines (kv : list (list N * list N))
    (sel : list (option nat)) (cats : list (list N)) : list (list N) :=
  filter (fun l => l ∉ cats)
         ((fun p => kv_line p.1 p.2) <$> unused 0 kv (taken sel)).

(** Every key of [keys] has a pair that matches it and matches none of
    the keys before it ([before] and the keys of [keys] up to it). *)
Fixpoint own_pairs {U : Unicode} (kv : list (list N * list N))
    (before keys : list (list N)) : bool :=
  match keys with
  | [] => true
  | key :: keys' =>
      existsb (fun p => _matches_key key p.1 p.2
                        && forallb (fun key' => negb (_matches_key key' p.1 p.2))
                                   before) kv
      && own_pairs kv (before ++ [key]) keys'
  end.

(** ** What is read of a document *)


(** ** The texts that a pattern matches *)

(** A text that [r] can match, whatever stands around it. *)
Fixpoint shape (r : regex) (w : list N) : Prop :=
  match r with
  | REps | RWordB => w = []
  | RFail => False
  | RSet p => exists c, w = [c] /\ p c = true
  | RMany p min => Forall (fun c => p c = true) w /\ (min <= length w)%nat
  | RSeq a b => exists w1 w2, w = w1 ++ w2 /\ shape a w1 /\ shape b w2
  | RAlt a b => shape a w \/ shape b w
  end.

(** ** The undo history *)

(** [str(n)] for a length [n] *)
Fixpoint uint_codes (d : Decimal.uint) : list N :=
  match d with
  | Decimal.Nil => []
  | Decimal.D0 d => 48 :: uint_codes d
  | Decimal.D1 d => 49 :: uint_codes d
  | Decimal.D2 d => 50 :: uint_codes d
  | Decimal.D3 d => 51 :: uint_codes d
  | Decimal.D4 d => 52 :: uint_codes d
  | Decimal.D5 d => 53 :: uint_codes d
  | Decimal.D6 d => 54 :: uint_codes d
  | Decimal.D7 d => 55 :: uint_codes d
  | Decimal.D8 d => 56 :: uint_codes d
  | Decimal.D9 d => 57 :: uint_codes d
  end.

Definition str_of_nat (n : nat) : list N := uint_codes (Nat.to_uint n).

(** The tuple of [get_state]: name, description, summary, features text
    and thumbnail path (a string or [None]). *)
Abbreviation snapshot :=
  (list N * list N * list N * list N * option (list N))%type.

(** What Streamlit is asked to show: [st.warning] and [st.success]. *)
Inductive notice :=
| Warning (msg : list N)
| Success (msg : list N).

(** The entries of [st.session_state] that the history reads or writes,
    and the notices shown so far. *)
Record session := {
  var_name : list N;
  var_desc : list N;
  var_summary : list N;
  var_feats : list N;
  last_thumb_path : option (list N);
  undo_stack : list snapshot;
  initial_state : option snapshot;
  shown : list notice
}.

Definition get_state (st : session) : snapshot :=
  (var_name st, var_desc st, var_summary st, var_feats st, last_thumb_path st).

Definition set_state (state : snapshot) (st : session) : session :=
  let '(n, d, s, f, t) := state in
  {| var_name := n; var_desc := d; var_summary := s; var_feats := f;
     last_thumb_path := t; undo_stack := undo_stack st;
     initial_state := initial_state st; shown := shown st |}.

Definition show (n : notice) (st : session) : session :=
  {| var_name := var_name st; var_desc := var_desc st;
     var_summary := var_summary st; var_feats := var_feats st;
     last_thumb_path := last_thumb_path st; undo_stack := undo_stack st;
     initial_state := initial_state st; shown := shown st ++ [n] |}.

Definition with_stack (stack : list snapshot) (st : session) : session :=
  {| var_name := var_name st; var_desc := var_desc st;
     var_summary := var_summary st; var_feats := var_feats st;
     last_thumb_path := last_thumb_path st; undo_stack := stack;
     initial_state := initial_state st; shown := shown st |}.

(** [st.session_state.undo_stack.append(get_state())] *)
Definition push_undo (st : session) : session :=
  with_stack (undo_stack st ++ [get_state st]) st.

(** [undo_once]: its result and the session it leaves.  [pop()] takes the
    last element of the list. *)
Definition undo_once (st : session) : bool * session :=
  match rev (undo_stack st) with
  | [] => (false, show (Warning (u8 "되돌릴 기록이 없습니다")) st)
  | state :: below =>
      let st := with_stack (rev below) st in
      let st := set_state state st in
      (true,
       show (Success (u8 "되돌리기 완료 (남은 단계: "
                      ++ str_of_nat (length (undo_stack st)) ++ u8 ")")) st)
  end.

Definition undo_to_initial (st : session) : bool * session :=
  match initial_state st with
  | None => (false, show (Warning (u8 "초기 상태가 없습니다")) st)
  | Some state =>
      let st := set_state state st in
      let st := with_stack [] st in
      (true, show (Success (u8 "처음 상태로 복원 완료")) st)
  end.

(** ** The Markdown export *)

(** [sep.join(xs)] *)
Fixpoint join (sep : list N) (xs : list (list N)) : list N :=
  match xs with
  | [] => []
  | [x] => x
  | x :: xs' => x ++ sep ++ join sep xs'
  end.

(** [os.path.basename(p)] of [posixpath]: what follows the last slash. *)
Fixpoint basename_go (cur s : list N) : list N :=
  match s with
  | [] => rev cur
  | c :: s' => if c =? 47 then basename_go [] s' else basename_go (c :: cur) s'
  end.

Definition basename (p : list N) : list N := basename_go [] p.

Definition export_markdown (name : list N) (thumb_path : option (list N))
    (desc summary : list N) (feats : list (list N)) : list N :=
  let lines :=
    [ u8 "**제품명**: " ++ name;
      u8 "**썸네일**: " ++ match thumb_path with
                           | Some (c :: p) => basename (c :: p)
                           | _ => []
                           end;
      [];
      u8 "### 제품 설명";
      desc;
      [];
      u8 "### 제품 요약";
      summary;
      [];
      u8 "### 특징";
      u8 "**◆ 주요 특징 ◆**" ] in
  let lines := match feats with
               | [] => lines ++ [[c_hyphen]]
               | _ => lines ++ feats
               end in
  join [c_lf] lines.

(** ** The features text of the editor *)

(** The list comprehension and the two lines after it that read the
    features text before an export:
    [l.strip()] when it starts with a hyphen, else the hyphen and a space
    before it, for every line [l] with [l.strip()] not empty; then the
    normalizer and the cut to [FEATURE_MAX]. *)
Definition feats_lines (feats : list N) : list (list N) :=
  flat_map (fun l =>
              let s := strip l in
              if is_empty s then []
              else if startswith [c_hyphen] s then [s]
              else [[c_hyphen; c_space] ++ s])
           (splitlines feats).

Definition feats_list {U : Unicode} (feats : list N) : list (list N) :=
  slice_to FEATURE_MAX (_normalize_korean_bullets (feats_lines feats) 64).

(** What the rule-based build stores as features text:
    the features joined by line feeds. *)
Definition stored_feats (feats : list (list N)) : list N := join [c_lf] feats.

(** [undo_once] called [n] times in a row *)
Fixpoint undo_n (n : nat) (st : session) : session :=
  match n with
  | O => st
  | S n => undo_n n (undo_once st).2
  end.

(** A text that [splitlines] keeps in one piece *)
Definition one_line (s : list N) : Prop :=
  Forall (fun c => is_linebreak c = false) s.

(** ** [_extract_json_str] *)

Definition c_lbrace : N := 123.
Definition c_rbrace : N := 125.
Definition fence : list N := [96; 96; 96].

(** The rest of the pattern after the opening brace, [.*?\}\s*```] with
    [re.DOTALL]: the lazy [.*?] is extended one character at a time until
    a closing brace is followed by white space and a fence.  [acc] is
    the group read so far, reversed. *)
Fixpoint lazy_close (acc s : list N) : option (list N) :=
  match s with
  | [] => None
  | c :: s' =>
      if (c =? c_rbrace) && startswith fence (lstrip_with is_space s')
      then Some (rev (c :: acc))
      else lazy_close (c :: acc) s'
  end.

(** [\s*(\{.*?\})\s*```] at the start of [s]: the group. *)
Definition fenced_body (s : list N) : option (list N) :=
  match lstrip_with is_space s with
  | c :: s' => if c =? c_lbrace then lazy_close [c] s' else None
  | [] => None
  end.

(** The whole pattern at the start of [s]: with the optional [json]
    first, without it next. *)
Definition fenced_at (s : list N) : option (list N) :=
  if startswith fence s then
    let r := skipn 3 s in
    match (if startswith (u8 "json") r then fenced_body (skipn 4 r)
           else None) with
    | Some g => Some g
    | None => fenced_body r
    end
  else None.

(** [re.search] of the pattern: group 1 of the leftmost match. *)
Fixpoint fenced_search (s : list N) : option (list N) :=
  match fenced_at s with
  | Some g => Some g
  | None =>
      match s with
      | [] => None
      | _ :: s' => fenced_search s'
      end
  end.

(** [s.find(c)] and [s.rfind(c)] for one character; [None] stands for
    [-1]. *)
Fixpoint find (c : N) (s : list N) : option nat :=
  match s with
  | [] => None
  | x :: s' => if x =? c then Some O else S <$> find c s'
  end.

Fixpoint rfind (c : N) (s : list N) : option nat :=
  match s with
  | [] => None
  | x :: s' =>
      match rfind c s' with
      | Some i => Some (S i)
      | None => if x =? c then Some O else None
      end
  end.

Definition _extract_json_str (mixed_text : list N) : list N :=
  let s := strip mixed_text in
  match fenced_search s with
  | Some g => strip g
  | None =>
      match find c_lbrace s, rfind c_rbrace s with
      | Some start, Some end_ =>
          if (start <? end_)%nat
          then strip (firstn (S end_ - start) (skipn start s))
          else s
      | _, _ => s
      end
  end.

(** ** Sample inputs *)

(** The item [foo1] followed by a double quote and a comma *)
Definition quoted_item : list N := u8 "foo1" ++ [c_dquote; c_comma].

(** A space followed by 99 letters [a] *)
Definition padded_text : list N := c_space :: repeat 97 99.

Definition gapped_text : list N := u8 "a  b".

(** A span of 101 letters [A], set in 12 points, in a PDF without
    metadata. *)
Definition long_model : list N := repeat 65 101.

Definition long_model_doc : fitz_document := {|
  doc_metadata := None;
  doc_pages :=
    [[[[ {| span_text := Some long_model; span_size := Some 12%Q |} ]]]]
|}.

(** Spaces, a tab, a line feed and a no-break space *)
Definition blank_text : list N := [c_space; 9; c_lf; c_space; 160; 13; c_lf].

(** Fifty lines [key: value]: the nine categories in turn as keys, with
    the values [qa] to [qf]. *)
Definition fifty_pairs_text : list N :=
  flat_map (fun i => nth (i mod 9) REQUIRED_KEYS []
                     ++ [c_colon; c_space; 113; 97 + N.of_nat (i / 9); c_lf])
           (seq 0 50).

(** A PDF whose metadata give a title *)
Definition titled_doc : fitz_document := {|
  doc_metadata := Some {[ "title"%string := u8 " XR-200 Edge Server " ]};
  doc_pages := []
|}.

(** 50 distinct pairs with a number in every value, every category with
    a key of its own *)
Definition numbered_pairs_text : list N :=
  flat_map (fun i => nth (i mod 9)
                       [u8 "CPU"; u8 "GPU"; u8 "Memory"; u8 "Storage";
                        u8 "Power"; u8 "I/O"; u8 "LAN"; u8 "Size";
                        u8 "Operating Temperature"] []
                     ++ [c_colon; c_space; 55; 97 + N.of_nat (i / 9); c_lf])
           (seq 0 50).



(** A session with two snapshots in its history *)
Definition edited_session : session := {|
  var_name := u8 "XR-200"; var_desc := u8 "Edge server";
  var_summary := u8 "Edge server with 2 LAN ports";
  var_feats := u8 "- CPU: i7";
  last_thumb_path := Some (u8 "/tmp/assets/thumb_200x200.png");
  undo_stack := [ (u8 "a", u8 "b", u8 "c", u8 "- d 1", None);
                  (u8 "XR", u8 "Edge", u8 "Edge server", u8 "- CPU: i5", None) ];
  initial_state := Some (u8 "a", u8 "b", u8 "c", u8 "- d 1", None);
  shown := []
|}.

(** ** The GPT calls

    The OpenAI client is outside the repository.  A call of it either
    raises, with the text [str(e)] of its exception, or gives the text
    that [_gpt] reads from its result ([output_text], or the content of
    the first choice), which can be missing or [None]. *)
Class OpenAI := {
  responses_create :
    list N -> list N -> Q -> Z -> list N + option (list N);
  chat_completions_create :
    list N -> list N -> Q -> Z -> list N + option (list N)
}.

Inductive exn :=
| RuntimeError (msg : list N)
| IndexError.

Inductive result (A : Type) :=
| Ok (a : A)
| Raise (e : exn).
Arguments Ok {A} a.
Arguments Raise {A} e.

Definition GPT_DEFAULT_MODEL : list N := u8 "gpt-4o-mini".

(** [str(n)] for an [int] *)
Definition str_of_int (n : Z) : list N :=
  if (n <? 0)%Z then c_hyphen :: str_of_nat (Z.to_nat (- n))
  else str_of_nat (Z.to_nat n).

Section Gpt.
Context {U : Unicode} {C : OpenAI}.
(** [st.session_state.openai_ready] *)
Variable openai_ready : bool.

Definition _gpt (prompt model : list N) (temperature : Q) (max_out : Z)
    : result (list N) :=
  if negb openai_ready then
    Raise (RuntimeError (u8 "OpenAI API가 준비되지 않았습니다."))
  else
    match responses_create model prompt temperature max_out with
    | inr output_text => Ok (strip (default [] output_text))
    | inl _ =>
        match chat_completions_create model prompt temperature max_out with
        | inr content => Ok (strip (default [] content))
        | inl e => Raise (RuntimeError (u8 "GPT 호출 실패: " ++ e))
        end
    end.

Definition name_prompt (seed_text : list N) : list N :=
  u8 "아래 데이터시트에서 실제 제품 모델명/시리즈명을 한 줄로만 추출하세요.
문장/설명 없이 모델명만 반환:

" ++ slice_to 1500 seed_text.

Definition gpt_generate_name (seed_text : list N) : result (list N) :=
  match _gpt (name_prompt seed_text) GPT_DEFAULT_MODEL (1 # 4) 80 with
  | Raise e => Raise e
  | Ok reply =>
      match splitlines reply with
      | [] => Raise IndexError
      | first :: _ => Ok (_truncate first 100)
      end
  end.

Definition description_prompt (seed_text : list N) (max_chars : Z) : list N :=
  u8 "다음 데이터시트를 읽고, 제품을 가장 잘 설명하는 한국어 한 줄 설명을 "
  ++ str_of_int max_chars
  ++ u8 "자 이내 명사구로 작성하세요.
조건: 마침표/따옴표/이모지 금지, 핵심 용도/형태/규격 포함

" ++ slice_to 2000 seed_text ++ u8 "

정답:".

Definition gpt_generate_description (seed_text : list N) (max_chars : Z)
    : result (list N) :=
  match _gpt (description_prompt seed_text max_chars) GPT_DEFAULT_MODEL
             (1 # 4) 120 with
  | Raise e => Raise e
  | Ok reply =>
      match splitlines reply with
      | [] => Raise IndexError
      | first :: _ =>
          Ok (_truncate (strip_chars [c_space; c_dquote; c_squote] first)
                        max_chars)
      end
  end.

Definition summary_prompt (seed_text : list N) (max_chars : Z) : list N :=
  u8 "다음 데이터시트의 핵심을 한국어로 "
  ++ str_of_int max_chars
  ++ u8 "자 이내 한 문장으로 요약하세요. 가능하면 CPU/GPU/메모리/스토리지/전원/네트워크/I/O 등 구체 수치나 규격을 포함하세요.

" ++ slice_to 2500 seed_text ++ u8 "

정답:".

Definition gpt_generate_summary (seed_text : list N) (max_chars : Z)
    : result (list N) :=
  match _gpt (summary_prompt seed_text max_chars) GPT_DEFAULT_MODEL
             (1 # 4) 240 with
  | Raise e => Raise e
  | Ok reply => Ok (_truncate reply max_chars)
  end.

Definition features_prompt (seed_text : list N) (max_items : Z) : list N :=
  let req := join (u8 ", ") REQUIRED_KEYS in
  u8 "당신은 한국어 기술 마케터입니다. 아래 데이터시트를 바탕으로 제품 '특징'을 한국어 불릿 리스트로 작성하세요.
- 항목 수 최대 "
  ++ str_of_int max_items
  ++ u8 "개, 가능한 한 많은 핵심 정보를 담되 중복 금지
- 각 항목은 '- '로 시작(그 외 기호 금지)
- 각 항목은 64자 이내, 간결한 명사구. 문장부호·이모지·마케팅 수사(혁신적/탁월 등) 금지
- 실측/규격/포트개수/전력/크기 등 숫자·단위를 최대한 포함 (예: 2×10GbE, DDR5 512GB, 2U, 800W 등)
- 다음 카테고리 정보가 문서에 **있으면 반드시** 최소 1항목 포함: "
  ++ req
  ++ u8 ". 문서에 **명시가 없으면 생략**(추측/창작 금지)
출력은 불릿들만 줄바꿈으로 구분하여 제공하세요(설명/코드블록 금지).

[원문]
" ++ slice_to 3500 seed_text ++ u8 "

정답(불릿만):".

Definition gpt_generate_features (seed_text : list N) (max_items : Z)
    : result (list (list N)) :=
  match _gpt (features_prompt seed_text max_items) GPT_DEFAULT_MODEL
             (1 # 4) 1400 with
  | Raise e => Raise e
  | Ok raw =>
      let feats := _normalize_korean_bullets (splitlines raw) 64 in
      Ok (slice_to max_items feats)
  end.

End Gpt.

(** A client whose first call raises and whose second call answers with
    two lines, a heading and a bullet. *)
Definition sample_client : OpenAI := {|
  responses_create := fun _ _ _ _ => inl (u8 "timeout");
  chat_completions_create := fun _ _ _ _ =>
    inr (Some (u8 "  XR-200 Edge Server
- CPU: Intel i7, 8 cores  "))
|}.

(** A client that answers with white space only. *)
Definition blank_client : OpenAI := {|
  responses_create := fun _ _ _ _ => inr (Some blank_text);
  chat_completions_create := fun _ _ _ _ => inl (u8 "not reached")
|}.

(** * Properties *)

Lemma plain_tables_laws : UnicodeLaws plain_tables.
Proof. split; [intros t; exists t; reflexivity | reflexivity]. Qed.

(** ** Slices and strips *)

Section ListFacts.
Context {A : Type}.
Implicit Types s : list A.

Lemma slice_to_nonneg n s : (0 <= n)%Z -> slice_to n s = take (Z.to_nat n) s.
Proof. intros Hn. unfold slice_to. destruct (Z.leb_spec 0 n); [done | lia]. Qed.

Lemma slice_to_prefix n s : slice_to n s `prefix_of` s.
Proof. unfold slice_to. destruct (0 <=? n)%Z; apply prefix_take. Qed.

Lemma slice_to_len n s : (0 <= n)%Z -> (len (slice_to n s) <= n)%Z.
Proof.
  intros Hn. rewrite slice_to_nonneg by done. unfold len.
  rewrite length_take. lia.
Qed.

Lemma slice_to_nil n : slice_to n (@nil A) = [].
Proof. unfold slice_to. destruct (0 <=? n)%Z; apply take_nil. Qed.

End ListFacts.

Lemma replace1_single old new s :
  replace1 old [new] s = map (fun c => if c =? old then new else c) s.
Proof.
  induction s as [|c s IH]; [done|]. cbn. destruct (c =? old); cbn; by f_equal.
Qed.

Lemma replace1_removes old new s : old <> new -> old ∉ replace1 old [new] s.
Proof.
  intros Hne. rewrite replace1_single. induction s as [|c s IH]; cbn.
  - apply not_elem_of_nil.
  - rewrite not_elem_of_cons. split; [|done].
    destruct (N.eqb_spec c old); congruence.
Qed.

Lemma replace1_absent old new s : old ∉ s -> replace1 old [new] s = s.
Proof.
  rewrite replace1_single. induction s as [|c s IH]; [done|].
  rewrite not_elem_of_cons. intros [Hc Hs]. cbn.
  destruct (N.eqb_spec c old); [congruence|]. f_equal. by apply IH.
Qed.

Lemma replace1_take old new n s :
  take n (replace1 old [new] s) = replace1 old [new] (take n s).
Proof. rewrite !replace1_single. symmetry. apply fmap_take. Qed.

Lemma slice_to_sublist {A} n (s : list A) : slice_to n s `sublist_of` s.
Proof. unfold slice_to. destruct (0 <=? n)%Z; apply sublist_take. Qed.

Lemma elem_of_rev_1 {A} (x : A) l : x ∈ rev l -> x ∈ l.
Proof. rewrite !list_elem_of_In. intros H. by apply in_rev. Qed.

(** ** Stripping keeps what lies before a character that stays *)

Lemma lstrip_with_app p a b :
  lstrip_with p (a ++ b) = lstrip_with p a ++ b
  \/ (lstrip_with p a = [] /\ lstrip_with p (a ++ b) = lstrip_with p b).
Proof.
  induction a as [|c a IH]; cbn.
  - by right.
  - destruct (p c); [exact IH | by left].
Qed.

Lemma lstrip_with_app_stop p a x b :
  p x = false -> lstrip_with p (a ++ x :: b) = lstrip_with p a ++ x :: b.
Proof.
  intros Hx. destruct (lstrip_with_app p a (x :: b)) as [H|[Ha H]]; [done|].
  rewrite H, Ha. cbn. by rewrite Hx.
Qed.

Lemma lstrip_with_length p s : (length (lstrip_with p s) <= length s)%nat.
Proof. induction s as [|c s IH]; cbn; [lia|]. destruct (p c); cbn; lia. Qed.

Lemma rstrip_with_length p s : (length (rstrip_with p s) <= length s)%nat.
Proof.
  unfold rstrip_with. rewrite length_rev.
  etransitivity; [apply lstrip_with_length|]. by rewrite length_rev.
Qed.

Lemma rstrip_with_cons p x s :
  p x = false -> rstrip_with p (x :: s) = x :: rstrip_with p s.
Proof.
  intros Hx. unfold rstrip_with. cbn [rev].
  rewrite lstrip_with_app_stop by done. by rewrite rev_app_distr.
Qed.

Lemma rstrip_with_cons_any p x s :
  rstrip_with p (x :: s) = [] \/ rstrip_with p (x :: s) = x :: rstrip_with p s.
Proof.
  destruct (p x) eqn:Hx; [|right; by apply rstrip_with_cons].
  unfold rstrip_with. cbn [rev].
  destruct (lstrip_with_app p (rev s) [x]) as [H|[Ha H]].
  - right. by rewrite H, rev_app_distr.
  - left. rewrite H. cbn. by rewrite Hx.
Qed.

Lemma strip_with_cons p x s :
  p x = false -> strip_with p (x :: s) = x :: rstrip_with p s.
Proof.
  intros Hx. unfold strip_with. cbn. rewrite Hx. by apply rstrip_with_cons.
Qed.

Lemma re_sub_tail_cons p x s :
  p x = false -> x <> c_lf -> re_sub_tail p (x :: s) = x :: re_sub_tail p s.
Proof.
  intros Hx Hlf. unfold re_sub_tail. cbn [rev].
  destruct (rev s) as [|c r] eqn:Hr.
  - cbn. rewrite Hx. destruct (N.eqb_spec x c_lf); [done|].
    apply (f_equal (@rev N)) in Hr. rewrite rev_involutive in Hr. by subst.
  - cbn [app]. destruct (p c) eqn:Hc.
    + change (c :: r ++ [x]) with ((c :: r) ++ [x]).
      rewrite lstrip_with_app_stop by done. by rewrite rev_app_distr.
    + destruct (c =? c_lf).
      * rewrite lstrip_with_app_stop by done. cbn [rev].
        rewrite rev_app_distr. done.
      * done.
Qed.

(** ** Stripping twice *)

Lemma lstrip_with_head p s :
  lstrip_with p s = [] \/ exists x t, lstrip_with p s = x :: t /\ p x = false.
Proof.
  induction s as [|c s IH]; cbn; [by left|].
  destruct (p c) eqn:Hc; [exact IH|]. right. by exists c, s.
Qed.

Lemma lstrip_with_idem p s : lstrip_with p (lstrip_with p s) = lstrip_with p s.
Proof.
  destruct (lstrip_with_head p s) as [-> | (x & t & -> & Hx)]; [done|].
  cbn. by rewrite Hx.
Qed.

Lemma strip_with_idem p s : strip_with p (strip_with p s) = strip_with p s.
Proof.
  unfold strip_with at 2 3.
  destruct (lstrip_with_head p s) as [-> | (x & t & -> & Hx)]; [done|].
  rewrite rstrip_with_cons by done. rewrite strip_with_cons by done.
  f_equal. unfold rstrip_with. by rewrite rev_involutive, lstrip_with_idem.
Qed.

Lemma strip_with_length p s : (length (strip_with p s) <= length s)%nat.
Proof.
  unfold strip_with. etransitivity; [apply rstrip_with_length|].
  apply lstrip_with_length.
Qed.

Lemma slice_to_80 (s : list N) :
  s <> [] -> slice_to 80 s <> [] /\ (length (slice_to 80 s) <= 80)%nat.
Proof.
  intros Hs. rewrite slice_to_nonneg by done. split.
  - destruct s; [done|]. discriminate.
  - rewrite length_take. lia.
Qed.

(** ** [_truncate] *)

Lemma _truncate_spec s n :
  _truncate s n = take (Z.to_nat n) (replace1 c_lf [c_space] (strip s)).
Proof.
  unfold _truncate. rewrite slice_to_nonneg by lia. f_equal. lia.
Qed.

Lemma _truncate_no_lf s n : c_lf ∉ _truncate s n.
Proof.
  rewrite _truncate_spec. intros Hin.
  apply (replace1_removes c_lf c_space (strip s)); [done|].
  eapply elem_of_prefix; [exact Hin | apply prefix_take].
Qed.

Lemma _truncate_len s n : (len (_truncate s n) <= Z.max 0 n)%Z.
Proof. apply slice_to_len. lia. Qed.

Lemma _truncate_mono s n m :
  (n <= m)%Z -> _truncate s n `prefix_of` _truncate s m.
Proof.
  intros Hnm. rewrite !_truncate_spec.
  set (t := replace1 c_lf [c_space] (strip s)).
  replace (take (Z.to_nat n) t) with (take (Z.to_nat n) (take (Z.to_nat m) t)).
  - apply prefix_take.
  - rewrite take_take. f_equal. lia.
Qed.

(** ** [rules_build_fields]: description and summary *)

(** C6, as amended: the description is the text, stripped of the white
    space around it and with every line feed replaced by a space (runs of
    white space are kept as they are), cut to [desc_max] characters; it
    holds no line feed; and when a text of 100 characters has no white
    space at either end and no line feed among its first 40 characters,
    the description for [desc_max = 40] is exactly these 40 characters. *)
Theorem description_is_cut_of_stripped_text `{U : Unicode}
    (pdf_bytes : pdf) (text : list N) (desc_max summary_max limit : Z) :
  let r := rules_build_fields pdf_bytes text desc_max summary_max limit in
  description r
    = take (Z.to_nat desc_max)
        (map (fun c => if c =? c_lf then c_space else c) (strip text))
  /\ (c_lf ∉ description r)
  /\ (desc_max = 40%Z -> length text = 100%nat -> strip text = text ->
      c_lf ∉ take 40 text -> description r = take 40 text).
Proof.
  cbn. split; [|split].
  - rewrite _truncate_spec. by rewrite replace1_single.
  - apply _truncate_no_lf.
  - intros -> _ Hs Hlf. rewrite _truncate_spec, Hs.
    change (Z.to_nat 40) with 40%nat.
    rewrite replace1_take. by apply replace1_absent.
Qed.

Lemma description_is_cut_of_stripped_text_witness :
  let text := repeat 97 100 in
  description (rules_build_fields (U:=plain_tables) None text 40 200 24)
  = take 40 text.
Proof.
  intros text.
  apply (description_is_cut_of_stripped_text (U:=plain_tables)
           None text 40 200 24).
  - reflexivity.
  - reflexivity.
  - vm_compute. reflexivity.
  - apply (bool_decide_unpack _). vm_compute. exact I.
Defined.

(** C6, as stated, fails: the 100 characters of [padded_text] have no
    line feed, yet its description for [desc_max = 40] is not its first 40
    characters, since the leading space is stripped; and the two spaces of
    [gapped_text] are not collapsed into one. *)
Lemma description_not_first_chars :
  length padded_text = 100%nat
  /\ (c_lf ∉ take 40 padded_text)
  /\ description (rules_build_fields (U:=plain_tables) None padded_text 40 200 24)
     <> take 40 padded_text
  /\ description (rules_build_fields (U:=plain_tables) None gapped_text 40 200 24)
     <> take 40 (collapse_ws gapped_text).
Proof.
  split; [reflexivity|]. split; [|split].
  - apply (bool_decide_unpack _). vm_compute. exact I.
  - vm_compute. intros H. discriminate H.
  - vm_compute. intros H. discriminate H.
Qed.

(** C10: when [desc_max <= summary_max], the description is a prefix of
    the summary. *)
Theorem description_prefix_of_summary `{U : Unicode}
    (pdf_bytes : pdf) (text : list N) (desc_max summary_max limit : Z) :
  (desc_max <= summary_max)%Z ->
  let r := rules_build_fields pdf_bytes text desc_max summary_max limit in
  description r `prefix_of` summary r.
Proof. intros Hle. cbn. by apply _truncate_mono. Qed.

Lemma description_prefix_of_summary_witness :
  let r := rules_build_fields (U:=plain_tables) None (u8 "CPU: Intel Xeon Gold 6338") 10 20 24 in
  description r `prefix_of` summary r.
Proof.
  apply (description_prefix_of_summary (U:=plain_tables)
           None (u8 "CPU: Intel Xeon Gold 6338") 10 20 24).
  lia.
Defined.

(** ** What one pass of the normalizer makes of an item *)

Lemma marked_startswith s :
  marked s <-> startswith [c_hyphen; c_space] s = true.
Proof.
  split.
  - intros [t ->]. reflexivity.
  - destruct s as [|a [|b t]]; [done| |].
    + unfold startswith. by rewrite andb_false_r.
    + unfold startswith. rewrite andb_true_r. intros [Ha Hb]%andb_prop.
      apply N.eqb_eq in Ha, Hb. subst. by exists t.
Qed.

Lemma fix_prefix_marked s : marked (fix_prefix s).
Proof.
  unfold fix_prefix.
  set (s' := if _ || _ || _ then strip _ else s).
  destruct (startswith [c_hyphen; c_space] s') eqn:E.
  - by apply marked_startswith.
  - by exists s'.
Qed.

Lemma rstrip_marked s : marked s -> bare_or_marked (rstrip s).
Proof.
  intros [t ->]. unfold rstrip. rewrite rstrip_with_cons by done.
  destruct (rstrip_with_cons_any is_space c_space t) as [-> | ->].
  - by left.
  - right. by eexists.
Qed.

Lemma strip_marked s : marked s -> bare_or_marked (strip s).
Proof.
  intros Hs. pose proof (rstrip_marked s Hs) as Hr. destruct Hs as [t ->].
  unfold strip. rewrite strip_with_cons by done.
  unfold rstrip in Hr. by rewrite rstrip_with_cons in Hr.
Qed.

Lemma strip_bare_or_marked s : bare_or_marked s -> bare_or_marked (strip s).
Proof. intros [-> | H]; [by left | by apply strip_marked]. Qed.

Lemma re_sub_tail_marked p s :
  p c_hyphen = false -> p c_space = false ->
  marked s -> marked (re_sub_tail p s).
Proof.
  intros Hh Hs [t ->]. rewrite !re_sub_tail_cons by done. by eexists.
Qed.

Lemma re_sub_tail_bare_or_marked p s :
  p c_hyphen = false -> p c_space = false ->
  bare_or_marked s -> bare_or_marked (re_sub_tail p s).
Proof.
  intros Hh Hs [-> | H].
  - left. rewrite re_sub_tail_cons by done. reflexivity.
  - right. by apply re_sub_tail_marked.
Qed.

Lemma collapse_ws_marked s : marked s -> marked (collapse_ws s).
Proof. intros [t ->]. by eexists. Qed.

Lemma replace1_marked old new s :
  old <> c_hyphen -> old <> c_space ->
  marked s -> marked (replace1 old new s).
Proof.
  intros Hh Hs [t ->]. unfold replace1. cbn [flat_map].
  destruct (N.eqb_spec c_hyphen old); [congruence|].
  destruct (N.eqb_spec c_space old); [congruence|].
  by eexists.
Qed.

Section ItemFacts.
Context {U : Unicode} {L : UnicodeLaws U}.

Lemma tidy_bare_or_marked s : marked s -> bare_or_marked (tidy s).
Proof.
  intros [t ->]. unfold tidy.
  destruct (nfkc_keeps_marker t) as [t' ->].
  apply strip_bare_or_marked, re_sub_tail_bare_or_marked; [done..|].
  apply strip_marked, re_sub_tail_marked; [done..|].
  do 3 (apply replace1_marked; [done..|]).
  apply collapse_ws_marked. by eexists.
Qed.

Lemma cut_bare_or_marked max_len s :
  (2 <= max_len)%Z -> bare_or_marked s -> bare_or_marked (cut max_len s).
Proof.
  intros Hm Hs. unfold cut. destruct (Z.gtb_spec (len s) max_len); [|done].
  rewrite slice_to_nonneg by lia.
  destruct Hs as [-> | [t ->]]; [unfold len in *; cbn in *; lia|].
  destruct (Z.to_nat max_len) as [|[|n]] eqn:En; [lia..|].
  cbn [take]. apply rstrip_marked. by eexists.
Qed.

End ItemFacts.

Section LoopFacts.
Context {U : Unicode}.

Lemma cut_len max_len s : (0 <= max_len)%Z -> (len (cut max_len s) <= max_len)%Z.
Proof.
  intros Hm. unfold cut. destruct (Z.gtb_spec (len s) max_len); [|lia].
  pose proof (slice_to_len max_len s Hm) as Hl.
  pose proof (rstrip_with_length is_space (slice_to max_len s)) as Hr.
  unfold rstrip, len in *. lia.
Qed.

Lemma bullet_item_Some max_len raw s :
  bullet_item max_len raw = Some s ->
  s = cut max_len (tidy (fix_prefix (strip raw))) /\ informative s.
Proof.
  unfold bullet_item. destruct (is_empty (strip raw)); [done|].
  set (s' := cut _ _).
  destruct (has_kr s') eqn:Hk; cbn [negb andb].
  - intros [= <-]. split; [done | by left].
  - unfold has_num_unit. destruct (existsb is_digit s') eqn:Hd; cbn [orb negb].
    + intros [= <-]. split; [done | right; by left].
    + destruct (bool_decide (is_Some (re_search _UNIT_RX s'))) eqn:Hu;
        cbn [negb]; [|done].
      intros [= <-]. split; [done|]. right; right.
      by apply bool_decide_eq_true in Hu.
Qed.

Lemma normalize_loop_spec max_len items out seen :
  (forall k, k ∈ seen <-> k ∈ map lower out) ->
  NoDup (map lower out) ->
  let r := normalize_loop max_len items out seen in
  NoDup (map lower r)
  /\ (forall y, y ∈ r ->
        y ∈ out \/ exists raw, raw ∈ items /\ bullet_item max_len raw = Some y)
  /\ out `prefix_of` r.
Proof.
  revert out seen. induction items as [|raw rest IH]; intros out seen Hseen Hnd; cbn.
  - split; [done|]. split; [by left | done].
  - destruct (bullet_item max_len raw) as [s|] eqn:Hs.
    + destruct (decide (lower s ∈ seen)) as [Hin|Hin].
      * destruct (IH out seen Hseen Hnd) as (H1 & H2 & H3).
        split; [done|]. split; [|done].
        intros y Hy. destruct (H2 y Hy) as [?|(raw' & ? & ?)]; [by left|].
        right. exists raw'. split; [by right | done].
      * destruct (IH (out ++ [s]) ({[lower s]} ∪ seen)) as (H1 & H2 & H3).
        { intros k. rewrite map_app, elem_of_app, elem_of_union, <- Hseen.
          cbn. rewrite list_elem_of_singleton, elem_of_singleton. tauto. }
        { rewrite map_app. cbn. apply NoDup_app. split; [done|].
          split; [|apply NoDup_singleton].
          intros k Hk. rewrite list_elem_of_singleton. intros ->.
          by apply Hin, Hseen. }
        split; [done|]. split.
        -- intros y Hy. destruct (H2 y Hy) as [Ho|(raw' & ? & ?)].
           ++ apply elem_of_app in Ho as [?|Ho]; [by left|].
              apply list_elem_of_singleton in Ho as ->.
              right. exists raw. split; [by left | done].
           ++ right. exists raw'. split; [by right | done].
        -- etransitivity; [|exact H3]. by apply prefix_app_r.
    + destruct (IH out seen Hseen Hnd) as (H1 & H2 & H3).
      split; [done|]. split; [|done].
      intros y Hy. destruct (H2 y Hy) as [?|(raw' & ? & ?)]; [by left|].
      right. exists raw'. split; [by right | done].
Qed.

Lemma normalize_item max_len items y :
  y ∈ _normalize_korean_bullets items max_len ->
  exists raw, raw ∈ items /\ bullet_item max_len raw = Some y.
Proof.
  intros Hy.
  destruct (normalize_loop_spec max_len items [] ∅) as (_ & H & _).
  - intros k. cbn. rewrite elem_of_nil. set_solver.
  - constructor.
  - destruct (H y Hy) as [Hn|?]; [|done]. by apply elem_of_nil in Hn.
Qed.

Lemma normalize_NoDup max_len items :
  NoDup (map lower (_normalize_korean_bullets items max_len)).
Proof.
  destruct (normalize_loop_spec max_len items [] ∅) as (H & _ & _).
  - intros k. cbn. rewrite elem_of_nil. set_solver.
  - constructor.
  - done.
Qed.

(** A list without two items of the same key, whose items the loop body
    leaves as they are, is appended unchanged. *)
Lemma normalize_loop_stable max_len ys out seen :
  (forall k, k ∈ seen <-> k ∈ map lower out) ->
  NoDup (map lower (out ++ ys)) ->
  (forall y, y ∈ ys -> bullet_item max_len y = Some y) ->
  normalize_loop max_len ys out seen = out ++ ys.
Proof.
  revert out seen. induction ys as [|y ys IH]; intros out seen Hseen Hnd Hst; cbn.
  - by rewrite app_nil_r.
  - rewrite (Hst y) by by left.
    destruct (decide (lower y ∈ seen)) as [Hin|Hin].
    + exfalso. rewrite map_app in Hnd. apply NoDup_app in Hnd as (_ & Hd & _).
      apply (Hd (lower y)); [by apply Hseen | by left].
    + rewrite (IH (out ++ [y]) ({[lower y]} ∪ seen)).
      * by rewrite <- app_assoc.
      * intros k. rewrite map_app, elem_of_app, elem_of_union, <- Hseen.
        cbn. rewrite list_elem_of_singleton, elem_of_singleton. tauto.
      * by rewrite <- app_assoc.
      * intros y' Hy'. apply Hst. by right.
Qed.

End LoopFacts.

Section BulletFacts.
Context {U : Unicode} {L : UnicodeLaws U}.

Lemma bare_hyphen_not_informative : ~ informative [c_hyphen].
Proof.
  intros [H|[H|H]].
  - done.
  - cbn in H. by rewrite hyphen_not_digit in H.
  - revert H. unfold re_search, re_search_go, _UNIT_RX. cbn.
    destruct (is_word c_hyphen); cbn; by intros [? ?].
Qed.

Lemma bullet_item_marked max_len raw s :
  (2 <= max_len)%Z -> bullet_item max_len raw = Some s ->
  marked s /\ (len s <= max_len)%Z /\ informative s.
Proof.
  intros Hm [-> Hi]%bullet_item_Some. split; [|split; [|done]].
  - assert (bare_or_marked (cut max_len (tidy (fix_prefix (strip raw)))))
      as [Hb|Hk]; [|by rewrite Hb in Hi; apply bare_hyphen_not_informative in Hi
                   |done].
    apply cut_bare_or_marked; [done|].
    apply tidy_bare_or_marked, fix_prefix_marked.
  - apply cut_len. lia.
Qed.

End BulletFacts.

(** ** The invariant of the feature bullets *)

(** C2: every feature starts with a hyphen and a space, has at most 64
    characters, holds a Hangul syllable, a digit or a unit token, and no
    two features have the same lower-case form. *)
Theorem features_are_feature_bullets {U : Unicode} {L : UnicodeLaws U}
    (pdf_bytes : pdf) (text : list N) (desc_max summary_max limit : Z) :
  let fs := features (rules_build_fields pdf_bytes text desc_max summary_max limit) in
  Forall (fun f => startswith [c_hyphen; c_space] f = true
                   /\ (len f <= 64)%Z
                   /\ informative f) fs
  /\ NoDup (map lower fs).
Proof.
  cbn. unfold rules_features.
  set (raw := gather _ _ _). split.
  - apply Forall_forall. intros f Hf.
    assert (f ∈ _normalize_korean_bullets raw 64) as Hn.
    { eapply elem_of_prefix; [exact Hf | apply slice_to_prefix]. }
    apply normalize_item in Hn as (item & _ & Hitem).
    apply bullet_item_marked in Hitem as (Hm & Hl & Hi); [|lia].
    by apply marked_startswith in Hm.
  - eapply sublist_NoDup; [apply (normalize_NoDup 64 raw)|].
    apply (fmap_sublist lower), slice_to_sublist.
Qed.

Lemma features_are_feature_bullets_witness :
  let fs := features (rules_build_fields (U:=plain_tables) None
              (u8 "Storage: 2TB SSD") 40 200 24) in
  Forall (fun f => startswith [c_hyphen; c_space] f = true
                   /\ (len f <= 64)%Z
                   /\ informative (U:=plain_tables) f) fs
  /\ NoDup (map (lower (Unicode:=plain_tables)) fs).
Proof.
  exact (features_are_feature_bullets (U:=plain_tables) (L:=plain_tables_laws)
           None (u8 "Storage: 2TB SSD") 40 200 24).
Defined.

(** ** The normalizer on concrete items *)

(** An item that starts with a hyphen keeps the hyphen, and with it the
    whole run of hyphens: only a hyphen followed by a space counts as the
    marker. *)
Lemma fix_prefix_keeps_hyphens t :
  strip (c_hyphen :: t) = c_hyphen :: t ->
  fix_prefix (c_hyphen :: t)
  = if startswith [c_space] t then c_hyphen :: t
    else c_hyphen :: c_space :: c_hyphen :: t.
Proof.
  intros Hs. unfold fix_prefix.
  change (startswith [c_hyphen] (c_hyphen :: t)) with true.
  cbn [orb]. change (lstrip_chars _ (c_hyphen :: t)) with (c_hyphen :: t).
  rewrite Hs. unfold startswith at 2.
  change (c_hyphen =? c_hyphen) with true. cbn [andb].
  destruct t as [|c t]; [done|]. unfold startswith.
  by destruct (c_space =? c).
Qed.

(** C7: a leading run of hyphens is not removed.  [-foo] becomes
    [- -foo] and [--foo] becomes [- --foo]: the set given to [lstrip]
    lacks the hyphen that [startswith] tests for. *)
Theorem hyphen_run_is_kept :
  fix_prefix (u8 "-foo") = u8 "- -foo"
  /\ fix_prefix (u8 "--foo") = u8 "- --foo"
  /\ _normalize_korean_bullets (U:=plain_tables) [u8 "--foo 2GB"] 64
     = [u8 "- --foo 2GB"].
Proof. split; [|split]; vm_compute; reflexivity. Qed.

(** C4: normalizing twice is not normalizing once.  The trim of quotes
    and ornaments runs before the trim of commas, each once: in
    [quoted_item] the comma hides the double quote from the first trim,
    so the result of one pass still ends with a double quote, a character
    that the first trim is there to remove, and a second pass removes
    it. *)
Theorem normalize_twice_differs :
  let n xs := _normalize_korean_bullets (U:=plain_tables) xs 64 in
  n [quoted_item] = [u8 "- foo1" ++ [c_dquote]]
  /\ punct_class c_dquote = true
  /\ n (n [quoted_item]) = [u8 "- foo1"]
  /\ n (n [quoted_item]) <> n [quoted_item].
Proof.
  split; [|split; [|split]]; vm_compute; [reflexivity | reflexivity | reflexivity |].
  intros H. discriminate H.
Qed.

(** ** The normalizer on a list in two parts *)

Section AppFacts.
Context {U : Unicode}.

Lemma normalize_loop_out max_len items out seen :
  exists rest,
    normalize_loop max_len items out seen = out ++ rest
    /\ Forall (fun y => exists raw, raw ∈ items
                        /\ bullet_item max_len raw = Some y) rest.
Proof.
  revert out seen. induction items as [|raw items IH]; intros out seen; cbn.
  - exists []. by rewrite app_nil_r.
  - assert (forall o s, exists rest,
              normalize_loop max_len items o s = o ++ rest
              /\ Forall (fun y => exists r, r ∈ raw :: items
                                  /\ bullet_item max_len r = Some y) rest) as IH'.
    { intros o s. destruct (IH o s) as (rest & -> & Hr). exists rest.
      split; [done|]. eapply Forall_impl; [exact Hr|].
      intros y (r & ? & ?). exists r. split; [by right | done]. }
    destruct (bullet_item max_len raw) as [s|] eqn:Hs; [|apply IH'].
    destruct (decide (lower s ∈ seen)); [apply IH'|].
    destruct (IH' (out ++ [s]) ({[lower s]} ∪ seen)) as (rest & -> & Hr).
    exists (s :: rest). rewrite <- app_assoc. split; [done|].
    constructor; [|done]. exists raw. split; [by left | done].
Qed.

Lemma normalize_loop_app max_len a b out seen :
  normalize_loop max_len (a ++ b) out seen
  = normalize_loop max_len b (normalize_loop max_len a out seen)
      (normalize_seen max_len a seen).
Proof.
  revert out seen. induction a as [|raw a IH]; intros out seen; cbn; [done|].
  destruct (bullet_item max_len raw) as [s|]; [|apply IH].
  destruct (decide (lower s ∈ seen)) as [Hin|Hin]; [|apply IH].
  rewrite IH. do 2 f_equal. symmetry. apply subseteq_union_1_L.
  by apply singleton_subseteq_l.
Qed.

(** The features made from [cats ++ gens]: first those made from [cats],
    then those made from [gens]. *)
Lemma normalize_app_split (n : nat) cats gens :
  exists fc fg,
    take n (_normalize_korean_bullets (cats ++ gens) 64) = fc ++ fg
    /\ Forall (cleaned_from cats) fc /\ Forall (cleaned_from gens) fg.
Proof.
  unfold _normalize_korean_bullets. rewrite normalize_loop_app.
  destruct (normalize_loop_out 64 cats [] ∅) as (fc & -> & Hfc).
  destruct (normalize_loop_out 64 gens ([] ++ fc) (normalize_seen 64 cats ∅))
    as (fg & -> & Hfg).
  cbn [app]. rewrite take_app.
  exists (take n fc), (take (n - length fc) fg).
  split; [done|]. split; by apply Forall_take.
Qed.

End AppFacts.

(** ** Harvested keys hold no colon *)

Lemma elem_of_lstrip_with p x s : x ∈ lstrip_with p s -> x ∈ s.
Proof.
  induction s as [|c s IH]; cbn; [done|].
  destruct (p c); [|done]. intros H. right. by apply IH.
Qed.

Lemma elem_of_strip_with p x s : x ∈ strip_with p s -> x ∈ s.
Proof.
  unfold strip_with, rstrip_with. intros H%elem_of_rev_1.
  apply elem_of_lstrip_with, elem_of_rev_1 in H.
  by apply elem_of_lstrip_with in H.
Qed.

Lemma contains_single_false c s : contains [c] s = false -> c ∉ s.
Proof.
  induction s as [|x s IH]; [intros _; apply not_elem_of_nil|].
  cbn [contains]. intros [H1 H2]%orb_false_elim.
  unfold startswith in H1. rewrite andb_true_r in H1.
  apply N.eqb_neq in H1. rewrite not_elem_of_cons. split; [done | by apply IH].
Qed.

Lemma split_once_single c s a b :
  split_once [c] s = Some (a, b) -> c ∉ a.
Proof.
  revert a. induction s as [|x s IH]; intros a.
  - cbn. discriminate.
  - cbn [split_once].
    destruct (startswith [c] (x :: s)) eqn:E.
    + intros [= <- _]. apply not_elem_of_nil.
    + destruct (split_once [c] s) as [[a' b']|]; [|discriminate].
      intros [= <- <-]. unfold startswith in E. rewrite andb_true_r in E.
      apply N.eqb_neq in E. rewrite not_elem_of_cons. split; [done | by apply IH].
Qed.

Lemma split_once_before sep s a b x :
  split_once sep s = Some (a, b) -> x ∈ a -> x ∈ s.
Proof.
  revert a. induction s as [|y s IH]; intros a.
  - cbn [split_once]. destruct (startswith sep []); [|discriminate].
    intros [= <- _] H. by apply elem_of_nil in H.
  - cbn [split_once]. destruct (startswith sep (y :: s)).
    + intros [= <- _] H. by apply elem_of_nil in H.
    + destruct (split_once sep s) as [[a' b']|]; [|discriminate].
      intros [= <- <-] [-> | H]%elem_of_cons; [by left|].
      right. by apply (IH a').
Qed.

Lemma kv_loop_no_colon max_items lines out :
  Forall (fun p => c_colon ∉ p.1) out ->
  Forall (fun p => c_colon ∉ p.1) (kv_loop max_items lines out).
Proof.
  revert out. induction lines as [|line lines IH]; intros out Hout;
    cbn [kv_loop]; [done|].
  set (s := strip line).
  destruct (is_empty s || (len s >? 300)%Z); [by apply IH|].
  set (sp := if contains [c_colon] s then split_once [c_colon] s
             else if contains [c_space; c_hyphen; c_space] s
                  then split_once [c_space; c_hyphen; c_space] s
                  else None).
  assert (forall k v, sp = Some (k, v) -> c_colon ∉ strip k) as Hk.
  { intros k v. unfold sp. destruct (contains [c_colon] s) eqn:Ec.
    - intros H%split_once_single Hin. apply H.
      by apply elem_of_strip_with in Hin.
    - apply contains_single_false in Ec.
      destruct (contains [c_space; c_hyphen; c_space] s); [|discriminate].
      intros H Hin. apply Ec. eapply split_once_before; [exact H|].
      by apply elem_of_strip_with in Hin. }
  destruct sp as [[k v]|]; [|by apply IH].
  specialize (Hk k v eq_refl).
  set (out' := if _ : bool then out ++ [(strip k, strip v)] else out).
  assert (Forall (fun p => c_colon ∉ p.1) out') as Hout'.
  { unfold out'. destruct (_ && _ && _); [|done].
    apply Forall_app. split; [done|]. by constructor. }
  destruct (len out' >=? max_items)%Z; [done | by apply IH].
Qed.

Lemma extract_kv_no_colon text max_items k v :
  (k, v) ∈ extract_kv_candidates text max_items -> c_colon ∉ k.
Proof.
  intros H. unfold extract_kv_candidates in H.
  pose proof (kv_loop_no_colon max_items (splitlines text) [] ltac:(constructor)) as HF.
  by apply (proj1 (Forall_forall _ _) HF (k, v)).
Qed.

(** Two pairs with keys without a colon and the same line are the same
    pair. *)
Lemma kv_line_inj k1 v1 k2 v2 :
  c_colon ∉ k1 -> c_colon ∉ k2 ->
  kv_line k1 v1 = kv_line k2 v2 -> (k1, v1) = (k2, v2).
Proof.
  unfold kv_line. cbn [app]. intros H1 H2 [= H]. revert k2 H2 H.
  induction k1 as [|x k1 IH]; intros [|y k2] H2 H; cbn in H.
  - by injection H as ->.
  - injection H as <- _. exfalso. apply H2. by left.
  - injection H as -> _. exfalso. apply H1. by left.
  - injection H as -> H. rewrite not_elem_of_cons in H1, H2.
    destruct H1 as [_ H1], H2 as [_ H2].
    by injection (IH H1 k2 H2 H) as -> ->.
Qed.

(** ** Counting the unused pairs *)

Lemma unused_ext i kv u1 u2 :
  (forall j, (i <= j)%nat -> j ∈ u1 <-> j ∈ u2) ->
  unused i kv u1 = unused i kv u2.
Proof.
  revert i. induction kv as [|p kv IH]; intros i H; cbn; [done|].
  rewrite (IH (S i)) by (intros j Hj; apply H; lia).
  destruct (decide (i ∈ u1)) as [H1|H1], (decide (i ∈ u2)) as [H2|H2];
    try done; exfalso; apply (H i) in H1 || apply (H i) in H2; done || lia.
Qed.

Lemma unused_length i kv used :
  (length kv <= length (unused i kv used) + size used)%nat.
Proof.
  revert i used. induction kv as [|p kv IH]; intros i used; cbn; [lia|].
  destruct (decide (i ∈ used)) as [Hi|Hi].
  - rewrite (unused_ext (S i) kv used (used ∖ {[i]})).
    + specialize (IH (S i) (used ∖ {[i]})).
      assert (size used = S (size (used ∖ {[i]}))) as ->; [|lia].
      rewrite size_difference by by apply singleton_subseteq_l.
      rewrite size_singleton.
      assert (size used <> 0)%nat; [|lia].
      intros H0. apply size_empty_inv in H0. set_solver.
    + intros j Hj. rewrite elem_of_difference, elem_of_singleton.
      split; [|tauto]. intros H. split; [done | lia].
  - cbn. specialize (IH (S i) used). lia.
Qed.

Lemma unused_sublist i kv used : unused i kv used `sublist_of` kv.
Proof.
  revert i. induction kv as [|p kv IH]; intros i; cbn; [done|].
  destruct (decide (i ∈ used)).
  - by apply sublist_cons.
  - by apply sublist_skip.
Qed.

(** ** The three passes of [rules_build_fields] *)

Section PassFacts.
Context {U : Unicode}.

Lemma first_match_Some key i kv used j v :
  first_match key i kv used = Some (j, v) ->
  exists k, (k, v) ∈ kv /\ _matches_key key k v = true.
Proof.
  revert i. induction kv as [|[k' v'] kv IH]; intros i; cbn [first_match];
    [discriminate|].
  assert (first_match key (S i) kv used = Some (j, v) ->
          exists k, (k, v) ∈ (k', v') :: kv /\ _matches_key key k v = true) as IH'.
  { intros (k & ? & ?)%IH. exists k. split; [by right | done]. }
  destruct (decide (i ∈ used)); [exact IH'|].
  destruct (_matches_key key k' v') eqn:Hm; [|exact IH'].
  intros [= _ <-]. exists k'. split; [by left | done].
Qed.

Lemma category_pass_spec limit keys kv feats0 used0 :
  exists ks cats,
    ks `sublist_of` keys /\ Forall2 (category_bullet kv) ks cats /\
    match category_pass limit keys kv feats0 used0 with
    | Returned feats => feats = feats0 ++ cats /\ (limit <= len feats)%Z
    | Continues (feats, used) =>
        feats = feats0 ++ cats /\ (size used <= size used0 + length cats)%nat
    end.
Proof.
  revert feats0 used0. induction keys as [|key keys IH]; intros feats0 used0.
  - exists [], []. cbn [category_pass]. rewrite app_nil_r.
    split; [done|]. split; [constructor|]. split; [done | lia].
  - cbn [category_pass].
    destruct (first_match key 0 kv used0) as [[i v]|] eqn:Hf.
    + apply first_match_Some in Hf as (k & Hin & Hm).
      destruct (Z.geb_spec (len (feats0 ++ [kv_line key v])) limit) as [Hl|Hl].
      * exists [key], [kv_line key v]. split; [|split; [|done]].
        -- apply sublist_skip, sublist_nil_l.
        -- constructor; [by exists k, v | constructor].
      * destruct (IH (feats0 ++ [kv_line key v]) ({[i]} ∪ used0))
          as (ks & cats & Hs & Hc & Hr).
        exists (key :: ks), (kv_line key v :: cats).
        split; [by apply sublist_skip|]. split.
        { constructor; [by exists k, v | done]. }
        destruct (category_pass _ _ _ _ _) as [feats|[feats used]].
        -- destruct Hr as [-> ?]. split; [by rewrite <- app_assoc | done].
        -- destruct Hr as [-> Hsz]. split; [by rewrite <- app_assoc|].
           pose proof (size_union_alt {[i]} used0) as Hu.
           pose proof (subseteq_size (used0 ∖ {[i]}) used0
                         (subseteq_difference_l _ _ _ (reflexivity _))).
           rewrite size_singleton in Hu. cbn [length]. lia.
    + destruct (Z.geb_spec (len feats0) limit) as [Hl|Hl].
      * exists [], []. rewrite app_nil_r.
        split; [apply sublist_nil_l|]. split; [constructor | done].
      * destruct (IH feats0 used0) as (ks & cats & Hs & Hc & Hr).
        exists ks, cats. split; [by apply sublist_cons|]. done.
Qed.

Lemma generic_pass_spec limit kv0 i kv used feats0 :
  (forall p, p ∈ kv -> p ∈ kv0) -> (len feats0 < limit)%Z ->
  exists gens,
    Forall (generic_bullet kv0) gens /\
    match generic_pass limit i kv used feats0 with
    | Returned feats => feats = feats0 ++ gens /\ len feats = limit
    | Continues feats =>
        feats = feats0 ++ gens /\ (len feats < limit)%Z
        /\ Forall (fun p => kv_line p.1 p.2 ∈ feats) (unused i kv used)
    end.
Proof.
  revert i feats0. induction kv as [|[k v] kv IH]; intros i feats0 Hsub Hlt.
  - exists []. cbn [generic_pass unused]. rewrite app_nil_r.
    split; [constructor|]. split; [done|]. split; [done | constructor].
  - assert (forall p, p ∈ kv -> p ∈ kv0) as Hsub' by (intros p ?; apply Hsub; by right).
    cbn [generic_pass unused].
    destruct (decide (i ∈ used)); [by apply IH|].
    destruct (bool_decide (kv_line k v ∈ feats0)) eqn:Hin.
    + apply bool_decide_eq_true in Hin.
      destruct (Z.geb_spec (len feats0) limit) as [Hl|Hl]; [lia|].
      destruct (IH (S i) feats0 Hsub' Hlt) as (gens & Hg & Hr).
      exists gens. split; [done|].
      destruct (generic_pass _ _ _ _ _) as [feats|feats]; [done|].
      destruct Hr as (-> & ? & Hu). repeat split; [done|].
      constructor; [|done]. cbn [fst snd]. apply elem_of_app. by left.
    + assert (generic_bullet kv0 (kv_line k v)) as Hgb.
      { exists k, v. split; [apply Hsub; by left | done]. }
      destruct (Z.geb_spec (len (feats0 ++ [kv_line k v])) limit) as [Hl|Hl].
      * exists [kv_line k v]. split; [constructor; [done | constructor]|].
        split; [done|].
        unfold len in *. rewrite length_app in *. cbn [length] in *. lia.
      * destruct (IH (S i) (feats0 ++ [kv_line k v]) Hsub' Hl) as (gens & Hg & Hr).
        exists (kv_line k v :: gens). split; [by constructor|].
        destruct (generic_pass _ _ _ _ _) as [feats|feats].
        -- destruct Hr as [-> ?]. split; [by rewrite <- app_assoc | done].
        -- destruct Hr as (-> & ? & Hu). split; [by rewrite <- app_assoc|].
           split; [done|]. constructor; [|done].
           cbn [fst snd]. rewrite !elem_of_app. left. right. by left.
Qed.

End PassFacts.

(** ** [rules_build_fields]: the cap on the features *)

(** C1: the features are at most [limit], for every text and every
    limit that is a count. *)
Theorem features_within_limit `{U : Unicode}
    (pdf_bytes : pdf) (text : list N) (desc_max summary_max limit : Z) :
  (0 <= limit)%Z ->
  (len (features (rules_build_fields pdf_bytes text desc_max summary_max limit))
   <= limit)%Z.
Proof. intros Hl. cbn. unfold rules_features. by apply slice_to_len. Qed.

Lemma features_within_limit_witness :
  (len (features (rules_build_fields (U:=plain_tables) None
                    (u8 "CPU: Intel Xeon Gold 6338") 40 200 24)) <= 24)%Z.
Proof.
  apply (features_within_limit (U:=plain_tables)
           None (u8 "CPU: Intel Xeon Gold 6338") 40 200 24).
  lia.
Defined.

(** ** Fifty pairs and a limit of 24 *)

Section FiftyPairs.
Context {U : Unicode}.

Lemma unused_lines_NoDup text used :
  let kv := extract_kv_candidates text 500 in
  NoDup kv ->
  NoDup ((fun p => kv_line p.1 p.2) <$> unused 0 kv used).
Proof.
  intros kv Hnd.
  pose proof (unused_sublist 0 kv used) as Hsub.
  apply NoDup_fmap_2_strong; [|by eapply sublist_NoDup].
  intros [k1 v1] [k2 v2] H1 H2. cbn [fst snd].
  apply kv_line_inj.
  - eapply (extract_kv_no_colon text 500 k1 v1), elem_of_sublist; [exact H1|done].
  - eapply (extract_kv_no_colon text 500 k2 v2), elem_of_sublist; [exact H2|done].
Qed.

End FiftyPairs.

(** C3, as stated, fails: [fifty_pairs_text] yields 50 distinct pairs,
    each of which matches a category, and every category is matched; yet
    with a limit of 24 there is no feature at all, since no value holds
    a digit, a unit token or a Hangul syllable. *)
Lemma fifty_pairs_without_numbers :
  let kv := extract_kv_candidates fifty_pairs_text 500 in
  length kv = 50%nat
  /\ NoDup kv
  /\ Forall (fun p => existsb (fun key =>
               _matches_key (U:=plain_tables) key p.1 p.2) REQUIRED_KEYS = true) kv
  /\ Forall (fun key => existsb (fun p =>
               _matches_key (U:=plain_tables) key p.1 p.2) kv = true) REQUIRED_KEYS
  /\ length (gather (U:=plain_tables) kv (extract_bullets fifty_pairs_text 300) 24)
     = 24%nat
  /\ features (rules_build_fields (U:=plain_tables) None fifty_pairs_text
                 40 200 24) = []
  /\ length (features (rules_build_fields (U:=plain_tables) None
                         fifty_pairs_text 40 200 24)) <> 24%nat.
Proof.
  split; [vm_compute; reflexivity|].
  split; [apply (bool_decide_unpack _); vm_compute; exact I|].
  split; [apply (bool_decide_unpack _); vm_compute; exact I|].
  split; [apply (bool_decide_unpack _); vm_compute; exact I|].
  split; [vm_compute; reflexivity|].
  split; [vm_compute; reflexivity|].
  vm_compute. intros H. discriminate H.
Qed.

(** ** What a match is made of *)

Section MatchFacts.
Context {U : Unicode}.

Lemma many_greedy_inv p min prev acc s k res :
  many_greedy p min prev acc s k = Some res ->
  exists w s' prev',
    s = w ++ s' /\ shape (RMany p min) w /\ k prev' (rev w ++ acc) s' = Some res.
Proof.
  revert min prev acc. induction s as [|c s IH]; intros min prev acc.
  - cbn [many_greedy]. destruct min; [|discriminate]. intros H.
    exists [], [], prev. split; [done|]. split; [|done]. split; [constructor | done].
  - cbn [many_greedy].
    assert (match min with O => k prev acc (c :: s) | S _ => None end = Some res ->
            exists w s' prev',
              c :: s = w ++ s' /\ shape (RMany p min) w
              /\ k prev' (rev w ++ acc) s' = Some res) as Hstop.
    { destruct min; [|discriminate]. intros H.
      exists [], (c :: s), prev. split; [done|]. split; [|done].
      split; [constructor | done]. }
    destruct (p c) eqn:Hc; [|exact Hstop].
    destruct (many_greedy p (pred min) (Some c) (c :: acc) s k) as [r|] eqn:Hm;
      [|exact Hstop].
    intros [= ->]. apply IH in Hm as (w & s' & prev' & -> & [Hw Hl] & Hk).
    exists (c :: w), s', prev'. split; [done|]. split.
    + split; [by constructor | cbn [length]; lia].
    + cbn [rev]. by rewrite <- app_assoc.
Qed.

Lemma rmatch_inv r : forall prev acc s k res,
  rmatch r prev acc s k = Some res ->
  exists w s' prev',
    s = w ++ s' /\ shape r w /\ k prev' (rev w ++ acc) s' = Some res.
Proof.
  induction r as [| |p|p min|a IHa b IHb|a IHa b IHb|]; intros prev acc s k res;
    cbn [rmatch].
  - intros H. by exists [], s, prev.
  - discriminate.
  - destruct s as [|c s]; [discriminate|]. destruct (p c) eqn:Hc; [|discriminate].
    intros H. exists [c], s, (Some c). split; [done|]. split; [by exists c | done].
  - apply many_greedy_inv.
  - intros (w1 & s1 & prev1 & -> & H1 & Hk)%IHa.
    apply IHb in Hk as (w2 & s2 & prev2 & -> & H2 & Hk).
    exists (w1 ++ w2), s2, prev2. split; [by rewrite app_assoc|]. split.
    + by exists w1, w2.
    + by rewrite rev_app_distr, <- app_assoc.
  - destruct (rmatch a prev acc s k) as [m|] eqn:Ha.
    + intros [= ->]. apply IHa in Ha as (w & s' & prev' & ? & ? & ?).
      exists w, s', prev'. split; [done|]. split; [by left | done].
    + intros (w & s' & prev' & ? & ? & ?)%IHb.
      exists w, s', prev'. split; [done|]. split; [by right | done].
  - destruct (xorb _ _); [|discriminate]. intros H. by exists [], s, prev.
Qed.

Lemma re_search_go_inv r prev s m :
  re_search_go r prev s = Some m ->
  shape r m /\ exists pre post, s = pre ++ m ++ post.
Proof.
  revert prev. induction s as [|c s IH]; intros prev; cbn [re_search_go].
  - destruct (rmatch r prev [] [] _) as [m'|] eqn:Hm; [|discriminate].
    intros [= ->]. apply rmatch_inv in Hm as (w & s' & _ & Hs & Hw & [= <-]).
    rewrite app_nil_r, rev_involutive. split; [done|]. by exists [], s'.
  - destruct (rmatch r prev [] (c :: s) _) as [m'|] eqn:Hm.
    + intros [= ->]. apply rmatch_inv in Hm as (w & s' & _ & Hs & Hw & [= <-]).
      rewrite app_nil_r, rev_involutive. split; [done|]. by exists [], s'.
    + intros (Hm' & pre & post & ->)%IH. split; [done|]. by exists (c :: pre), post.
Qed.

Lemma re_search_inv r s m :
  re_search r s = Some m ->
  shape r m /\ (length m <= length s)%nat.
Proof.
  intros (H & pre & post & ->)%re_search_go_inv. split; [done|].
  rewrite !length_app. lia.
Qed.

End MatchFacts.

(** ** A model code is at least three characters of its class *)

Lemma az_i_model_tail c : az_i c = true -> model_tail c = true.
Proof. unfold model_tail, az09_i. by intros ->. Qed.

Lemma az09_i_model_tail c : az09_i c = true -> model_tail c = true.
Proof. unfold model_tail. by intros ->. Qed.

Lemma model_tail_not_space c : model_tail c = true -> is_space c = false.
Proof.
  intros H. apply not_true_is_false. intros H'. revert H H'.
  unfold is_space, model_tail, az09_i, az_i, in_range, c_hyphen.
  rewrite !orb_true_iff, !andb_true_iff, !N.leb_le, !N.eqb_eq. lia.
Qed.

Lemma shape_MODEL_RX m :
  shape MODEL_RX m ->
  Forall (fun c => model_tail c = true) m /\ (3 <= length m)%nat.
Proof.
  unfold MODEL_RX. cbn [shape].
  intros (w0 & w & -> & -> & w1 & w2 & -> & Halt & ->).
  rewrite app_nil_l, app_nil_r.
  destruct Halt as [(a & b & -> & [Ha Hla] & [Hb Hlb])
                   |(a & w' & -> & [Ha Hla] & h & b & -> & (c & -> & Hc) & [Hb Hlb])].
  - split; [|rewrite length_app; lia].
    apply Forall_app. split; [|done].
    eapply Forall_impl; [exact Ha | apply az_i_model_tail].
  - split; [|rewrite !length_app; cbn [length]; lia].
    apply Forall_app. split.
    { eapply Forall_impl; [exact Ha | apply az09_i_model_tail]. }
    apply Forall_app. split; [|done]. constructor; [|constructor].
    apply N.eqb_eq in Hc as <-. reflexivity.
Qed.

Lemma lstrip_with_none p s :
  Forall (fun c => p c = false) s -> lstrip_with p s = s.
Proof. destruct 1 as [|c s Hc _]; cbn; [done|]. by rewrite Hc. Qed.

Lemma strip_with_none p s :
  Forall (fun c => p c = false) s -> strip_with p s = s.
Proof.
  intros H. unfold strip_with, rstrip_with.
  rewrite (lstrip_with_none _ _ H), lstrip_with_none; [apply rev_involutive|].
  by apply Forall_rev.
Qed.

(** ** The title: never empty, and long only as a model code of a span *)

Lemma insert_desc_elem x y l : y ∈ insert_desc x l -> y = x \/ y ∈ l.
Proof.
  induction l as [|z l IH]; cbn [insert_desc].
  - intros ->%list_elem_of_singleton. by left.
  - destruct (Qle_bool z.1 x.1).
    + intros [-> | H]%elem_of_cons; [by left | by right].
    + intros [-> | H]%elem_of_cons; [right; by left|].
      destruct (IH H) as [-> | ?]; [by left | right; by right].
Qed.

Lemma sort_desc_elem y l : y ∈ sort_desc l -> y ∈ l.
Proof.
  induction l as [|x l IH]; cbn [sort_desc fold_right]; [done|].
  intros [-> | H]%insert_desc_elem; [by left | right; by apply IH].
Qed.

Lemma collect_tops_text doc q t : (q, t) ∈ collect_tops doc -> t <> [].
Proof.
  unfold collect_tops. rewrite list_elem_of_In.
  intros (page & _ & H)%in_flat_map.
  apply in_flat_map in H as (b & _ & H).
  apply in_flat_map in H as (l & _ & H).
  apply in_flat_map in H as (s & _ & H).
  destruct (strip (default [] (span_text s))) as [|c txt]; [done|].
  cbn [is_empty negb andb] in H. destruct (Qle_bool 8 _); [|done].
  destruct H as [[= _ <-]|[]]. discriminate.
Qed.

Section TitleFacts.
Context {U : Unicode}.

Lemma model_match m s :
  re_search MODEL_RX s = Some m ->
  m <> [] /\ strip m = m /\ (length m <= length s)%nat.
Proof.
  intros [Hs Hl]%re_search_inv. apply shape_MODEL_RX in Hs as [Hc H3].
  split; [by destruct m; [cbn in H3; lia|] |]. split; [|done].
  apply strip_with_none. eapply Forall_impl; [exact Hc|]. apply model_tail_not_space.
Qed.

Lemma title_from_metadata_Some doc t :
  title_from_metadata doc = Some t -> t <> [] /\ (length t <= 100)%nat.
Proof.
  unfold title_from_metadata.
  set (meta := default ∅ (doc_metadata doc)).
  assert (forall k : string,
    (let v := strip (default [] (meta !! k)) in
     if negb (is_empty v) && (2 <=? len v)%Z && (len v <=? 100)%Z
     then Some (strip (default v (re_search MODEL_RX v))) else None) = Some t ->
    t <> [] /\ (length t <= 100)%nat) as Hkey.
  { intros k. cbv zeta. set (v := strip (default [] (meta !! k))).
    destruct (is_empty v) eqn:Hv; [discriminate|]. cbn [negb andb].
    destruct (Z.leb_spec 2 (len v)); [|discriminate].
    destruct (Z.leb_spec (len v) 100); [|discriminate].
    cbn [andb]. intros [= <-]. unfold len in *.
    destruct (re_search MODEL_RX v) as [m|] eqn:Hm.
    - change (default v (Some m)) with m.
      apply model_match in Hm as (Hne & -> & Hl). split; [done | lia].
    - change (default v None) with v. unfold v, strip. rewrite strip_with_idem. fold (strip (default [] (meta !! k))).
      fold v. split; [by destruct v | lia]. }
  cbv zeta.
  destruct (if negb _ && _ && _ then _ else _) as [t'|] eqn:E1.
  - intros [= <-]. by apply (Hkey "title"%string).
  - apply (Hkey "subject"%string).
Qed.

Lemma first_model_Some ts t : first_model ts = Some t -> t <> [].
Proof.
  induction ts as [|[q x] ts IH]; cbn [first_model]; [discriminate|].
  destruct (re_search MODEL_RX x) as [m|] eqn:Hm; [|exact IH].
  intros [= <-]. by apply model_match in Hm as (Hne & -> & _).
Qed.

Lemma title_from_spans_Some doc t :
  title_from_spans doc = Some t ->
  t <> []
  /\ ((length t <= 80)%nat
      \/ first_model (take 50 (sort_desc (collect_tops doc))) = Some t).
Proof.
  unfold title_from_spans.
  destruct (sort_desc (collect_tops doc)) as [|[q x] rest] eqn:Hs; [discriminate|].
  destruct (first_model (take 50 ((q, x) :: rest))) as [t'|] eqn:Hf.
  - intros [= <-]. split; [by apply first_model_Some in Hf | by right].
  - intros [= <-]. cbn [snd].
    assert (x <> []) as Hx.
    { apply (collect_tops_text doc q), sort_desc_elem. rewrite Hs. by left. }
    destruct (slice_to_80 x Hx). split; [done | by left].
Qed.

Lemma first_line_Some lines s :
  first_line lines = Some s -> s <> [] /\ (length s <= 80)%nat.
Proof.
  induction lines as [|line lines IH]; cbn [first_line]; [discriminate|].
  destruct (strip line) as [|c x] eqn:Hx; cbn [is_empty]; [exact IH|].
  intros [= <-]. by apply slice_to_80.
Qed.

(** X7: the name is never empty. *)
Lemma guess_title_not_empty (pdf_bytes : pdf) (text : list N) :
  guess_title_from_pdf pdf_bytes text <> [].
Proof.
  unfold guess_title_from_pdf.
  destruct (pdf_bytes ≫= title_from_metadata) as [t|] eqn:Hm.
  { destruct pdf_bytes as [doc|]; [|discriminate].
    by apply title_from_metadata_Some in Hm as [? _]. }
  destruct (pdf_bytes ≫= title_from_spans) as [t|] eqn:Hs.
  { destruct pdf_bytes as [doc|]; [|discriminate].
    by apply title_from_spans_Some in Hs as [? _]. }
  destruct (re_search MODEL_RX text) as [m|] eqn:Hr.
  { apply model_match in Hr as (Hne & _ & _). by apply slice_to_80. }
  destruct (first_line (splitlines text)) as [s|] eqn:Hl.
  { by apply first_line_Some in Hl as [? _]. }
  discriminate.
Qed.

(** X8: the name has at most 100 characters, unless it is the model code
    found in one of the 50 largest spans. *)
Lemma guess_title_length (pdf_bytes : pdf) (text : list N) :
  (length (guess_title_from_pdf pdf_bytes text) <= 100)%nat
  \/ exists doc,
       pdf_bytes = Some doc /\ title_from_metadata doc = None
       /\ first_model (take 50 (sort_desc (collect_tops doc)))
          = Some (guess_title_from_pdf pdf_bytes text).
Proof.
  unfold guess_title_from_pdf.
  destruct (pdf_bytes ≫= title_from_metadata) as [t|] eqn:Hm.
  { destruct pdf_bytes as [doc|]; [|discriminate].
    left. by apply title_from_metadata_Some in Hm as [_ ?]. }
  destruct (pdf_bytes ≫= title_from_spans) as [t|] eqn:Hs.
  { destruct pdf_bytes as [doc|]; [|discriminate].
    apply title_from_spans_Some in Hs as [_ [?|Hf]]; [left; lia|].
    right. by exists doc. }
  left. destruct (re_search MODEL_RX text) as [m|] eqn:Hr.
  { apply model_match in Hr as (Hne & _ & _).
    destruct (slice_to_80 m Hne). lia. }
  destruct (first_line (splitlines text)) as [s|] eqn:Hl.
  { apply first_line_Some in Hl as [_ ?]. lia. }
  vm_compute. lia.
Qed.

End TitleFacts.

(** ** The title on a long model code *)

(** C5: a span that is one model code of 101 characters is returned
    whole; this return is the only one of [guess_title_from_pdf] without a
    bound on the length. *)
Theorem long_model_code_is_not_cut :
  guess_title_from_pdf (U:=plain_tables) (Some long_model_doc) [] = long_model
  /\ length long_model = 101%nat.
Proof. split; vm_compute; reflexivity. Qed.

(** ** Blank text *)

Lemma lstrip_with_all p s :
  Forall (fun c => p c = true) s -> lstrip_with p s = [].
Proof. induction 1 as [|c s Hc _ IH]; cbn; [done|]. by rewrite Hc. Qed.

Lemma strip_blank s : blank s -> strip s = [].
Proof.
  intros Hs. unfold strip, strip_with. by rewrite (lstrip_with_all _ _ Hs).
Qed.

(** The characters of the lines are characters of the text. *)
Lemma splitlines_go_chars n : forall s cur line c,
  (length s <= n)%nat ->
  line ∈ splitlines_go cur s -> c ∈ line -> c ∈ cur \/ c ∈ s.
Proof.
  induction n as [|n IH]; intros s cur line c Hn Hline Hc.
  - destruct s; [|cbn in Hn; lia]. cbn in Hline.
    destruct cur as [|x cur]; [by apply elem_of_nil in Hline|].
    apply list_elem_of_singleton in Hline as ->.
    left. by apply elem_of_rev_1 in Hc.
  - destruct s as [|x s]; [apply (IH [] cur line c); [cbn; lia|done..]|].
    cbn in Hn. cbn [splitlines_go] in Hline.
    destruct (is_linebreak x).
    + apply elem_of_cons in Hline as [-> | Hline].
      { left. by apply elem_of_rev_1 in Hc. }
      destruct s as [|d s']; [by apply elem_of_nil in Hline|].
      destruct ((x =? 13) && (d =? 10)).
      * destruct (IH s' [] line c) as [H|H]; [cbn in Hn; lia|done..| |].
        -- by apply elem_of_nil in H.
        -- right. by do 2 right.
      * destruct (IH (d :: s') [] line c) as [H|H]; [lia|done..| |].
        -- by apply elem_of_nil in H.
        -- right. by right.
    + destruct (IH s (x :: cur) line c) as [H|H]; [lia|done..| |].
      * apply elem_of_cons in H as [-> | H]; [right; by left | by left].
      * right. by right.
Qed.

Lemma splitlines_blank s : blank s -> Forall blank (splitlines s).
Proof.
  intros Hs. apply Forall_forall. intros line Hline.
  apply Forall_forall. intros c Hc.
  destruct (splitlines_go_chars (length s) s [] line c) as [H|H]; [lia|done..| |].
  - by apply elem_of_nil in H.
  - by apply (proj1 (Forall_forall _ _) Hs).
Qed.

Lemma kv_loop_blank max_items lines out :
  Forall blank lines -> kv_loop max_items lines out = out.
Proof.
  induction 1 as [|line lines Hl _ IH]; cbn; [done|].
  by rewrite (strip_blank _ Hl).
Qed.

Lemma bullets_loop_blank max_items lines feats :
  Forall blank lines -> bullets_loop max_items lines feats = feats.
Proof.
  induction 1 as [|line lines Hl _ IH]; cbn; [done|].
  by rewrite (strip_blank _ Hl).
Qed.

Lemma space_not_model c : is_space c = true -> az09_i c = false.
Proof.
  intros H. apply not_true_is_false. intros H'. revert H H'.
  unfold is_space, az09_i, az_i, in_range.
  rewrite !orb_true_iff, !andb_true_iff, !N.leb_le, !N.eqb_eq. lia.
Qed.

Section BlankFacts.
Context {U : Unicode}.

Lemma first_line_blank lines : Forall blank lines -> first_line lines = None.
Proof.
  induction 1 as [|line lines Hl _ IH]; cbn; [done|].
  by rewrite (strip_blank _ Hl).
Qed.

(** A match of [MODEL_RX] starts with a letter or a digit. *)
Lemma model_rx_start prev s k :
  (forall c, head s = Some c -> az09_i c = false) ->
  rmatch MODEL_RX prev [] s k = None.
Proof.
  intros Hs. unfold MODEL_RX. cbn [rmatch].
  destruct (xorb _ _); [|done].
  destruct s as [|c s]; [done|].
  specialize (Hs c eq_refl). cbn [many_greedy].
  rewrite Hs. unfold az09_i in Hs. apply orb_false_elim in Hs as [-> _]. done.
Qed.

Lemma model_rx_search_go_None prev s :
  Forall (fun c => az09_i c = false) s -> re_search_go MODEL_RX prev s = None.
Proof.
  intros Hs. revert prev. induction Hs as [|c s Hc _ IH]; intros prev.
  - cbn [re_search_go]. rewrite model_rx_start; [done|]. by intros c [=].
  - cbn [re_search_go]. rewrite model_rx_start; [apply IH|].
    by intros c' [= <-].
Qed.

Lemma model_rx_blank s : blank s -> re_search MODEL_RX s = None.
Proof.
  intros Hs. apply model_rx_search_go_None.
  eapply Forall_impl; [exact Hs|]. apply space_not_model.
Qed.

Lemma category_pass_empty limit keys used :
  category_pass limit keys [] [] used = Returned []
  \/ category_pass limit keys [] [] used = Continues ([], used).
Proof.
  induction keys as [|key keys IH]; cbn; [by right|].
  destruct (len [] >=? limit)%Z; [by left | exact IH].
Qed.

Lemma gather_empty limit : gather [] [] limit = [].
Proof.
  unfold gather.
  by destruct (category_pass_empty limit REQUIRED_KEYS ∅) as [-> | ->].
Qed.

(** C8: for an empty or blank text, when neither the metadata nor the
    spans of the PDF give a title, the name is the placeholder, the
    description and the summary are empty and there is no feature. *)
Theorem blank_text_gives_placeholder
    (pdf_bytes : pdf) (text : list N) (desc_max summary_max limit : Z) :
  blank text -> no_title_in_pdf pdf_bytes ->
  rules_build_fields pdf_bytes text desc_max summary_max limit
  = {| name := placeholder; description := []; summary := [];
       features := [] |}.
Proof.
  intros Hb [Hm Hs]. unfold rules_build_fields. f_equal.
  - unfold guess_title_from_pdf. rewrite Hm, Hs, (model_rx_blank _ Hb).
    by rewrite (first_line_blank _ (splitlines_blank _ Hb)).
  - unfold _truncate. rewrite (strip_blank _ Hb). apply slice_to_nil.
  - unfold _truncate. rewrite (strip_blank _ Hb). apply slice_to_nil.
  - unfold rules_features, extract_kv_candidates, extract_bullets.
    rewrite (kv_loop_blank _ _ _ (splitlines_blank _ Hb)).
    rewrite (bullets_loop_blank _ _ _ (splitlines_blank _ Hb)).
    rewrite gather_empty. apply slice_to_nil.
Qed.

End BlankFacts.

Lemma blank_text_gives_placeholder_witness :
  rules_build_fields (U:=plain_tables) None blank_text 40 200 24
  = {| name := placeholder; description := []; summary := [];
       features := [] |}.
Proof.
  apply (blank_text_gives_placeholder (U:=plain_tables) None blank_text 40 200 24).
  - apply (bool_decide_unpack _). vm_compute. exact I.
  - split; reflexivity.
Defined.

(** ** [rules_build_fields] is a function of what it reads *)



(** ** Further properties of [_truncate] *)

Lemma strip_with_head p s c : head (strip_with p s) = Some c -> p c = false.
Proof.
  unfold strip_with.
  destruct (lstrip_with_head p s) as [-> | (x & t & -> & Hx)]; [done|].
  rewrite rstrip_with_cons by done. by intros [= <-].
Qed.

Lemma rstrip_with_last p s c : last (rstrip_with p s) = Some c -> p c = false.
Proof.
  unfold rstrip_with.
  destruct (lstrip_with_head p (rev s)) as [-> | (x & t & -> & Hx)]; [done|].
  cbn [rev]. rewrite last_snoc. by intros [= <-].
Qed.

Lemma strip_with_last p s c : last (strip_with p s) = Some c -> p c = false.
Proof. apply rstrip_with_last. Qed.

(** X1: the description and the summary have at most [max(0, desc_max)]
    and [max(0, summary_max)] characters, hold no line feed and do not
    start with white space. *)
Theorem description_and_summary_bounded {U : Unicode}
    (pdf_bytes : pdf) (text : list N) (desc_max summary_max limit : Z) :
  let r := rules_build_fields pdf_bytes text desc_max summary_max limit in
  (len (description r) <= Z.max 0 desc_max)%Z
  /\ (len (summary r) <= Z.max 0 summary_max)%Z
  /\ (c_lf ∉ description r)
  /\ (c_lf ∉ summary r)
  /\ (forall c, head (description r) = Some c -> is_space c = false)
  /\ (forall c, head (summary r) = Some c -> is_space c = false).
Proof.
  cbn. split; [apply _truncate_len|]. split; [apply _truncate_len|].
  split; [apply _truncate_no_lf|]. split; [apply _truncate_no_lf|].
  assert (forall n c, head (_truncate text n) = Some c -> is_space c = false) as H.
  { intros n c. rewrite _truncate_spec, replace1_single.
    destruct (Z.to_nat n) as [|k]; [done|].
    pose proof (strip_with_head is_space text) as Hh. fold (strip text) in Hh.
    destruct (strip text) as [|x t]; [done|]. cbn [map take head].
    specialize (Hh x eq_refl). destruct (N.eqb_spec x c_lf) as [->|_]; [done|].
    by intros [= <-]. }
  split; apply H.
Qed.

(** ** Further properties of the normalizer *)

Lemma omap_length_le {A B} (f : A -> option B) l :
  (length (omap f l) <= length l)%nat.
Proof. induction l as [|x l IH]; cbn; [lia|]. destruct (f x); cbn; lia. Qed.

Section NormalizeMore.
Context {U : Unicode}.

Lemma normalize_loop_sublist max_len items out seen :
  exists rest,
    normalize_loop max_len items out seen = out ++ rest
    /\ rest `sublist_of` omap (bullet_item max_len) items.
Proof.
  revert out seen. induction items as [|raw items IH]; intros out seen;
    cbn [normalize_loop omap list_omap].
  - exists []. by rewrite app_nil_r.
  - destruct (bullet_item max_len raw) as [s|]; [|apply IH].
    destruct (decide (lower s ∈ seen)).
    + destruct (IH out seen) as (rest & -> & Hr). exists rest.
      split; [done | by apply sublist_cons].
    + destruct (IH (out ++ [s]) ({[lower s]} ∪ seen)) as (rest & -> & Hr).
      exists (s :: rest). rewrite <- app_assoc. split; [done | by apply sublist_skip].
Qed.

(** X2: the normalizer returns cleaned items in the order of the input,
    each at most once, so never more items than it was given. *)
Theorem normalize_keeps_order (items : list (list N)) (max_len : Z) :
  _normalize_korean_bullets items max_len
    `sublist_of` omap (bullet_item max_len) items
  /\ (length (_normalize_korean_bullets items max_len) <= length items)%nat.
Proof.
  destruct (normalize_loop_sublist max_len items [] ∅) as (rest & Hr & Hs).
  unfold _normalize_korean_bullets. rewrite Hr. cbn [app]. split; [done|].
  etransitivity; [apply (sublist_length _ _ Hs) | apply omap_length_le].
Qed.

(** X3: normalizing a list that continues another one starts with the
    items that the normalizer returns for the first list. *)
Theorem normalize_prefix_of_longer (xs ys : list (list N)) (max_len : Z) :
  _normalize_korean_bullets xs max_len
    `prefix_of` _normalize_korean_bullets (xs ++ ys) max_len.
Proof.
  unfold _normalize_korean_bullets. rewrite normalize_loop_app.
  destruct (normalize_loop_out max_len ys (normalize_loop max_len xs [] ∅)
              (normalize_seen max_len xs ∅)) as (rest & -> & _).
  by exists rest.
Qed.

End NormalizeMore.

(** The characters that a cleaned item may hold: white space only as the
    plain space, no bullet, no en dash, no em dash. *)
Lemma elem_of_rstrip_with p x s : x ∈ rstrip_with p s -> x ∈ s.
Proof.
  unfold rstrip_with. intros H%elem_of_rev_1.
  by apply elem_of_lstrip_with, elem_of_rev_1 in H.
Qed.

Lemma elem_of_re_sub_tail p x s : x ∈ re_sub_tail p s -> x ∈ s.
Proof.
  unfold re_sub_tail. destruct (rev s) as [|c r] eqn:Hr;
    [by intros ?%elem_of_nil|].
  assert (forall y, y ∈ c :: r -> y ∈ s) as Hin.
  { intros y Hy. apply elem_of_rev_1. by rewrite Hr. }
  destruct (p c).
  - intros H%elem_of_rev_1. by apply elem_of_lstrip_with, Hin in H.
  - destruct (c =? c_lf) eqn:Hc; [|done].
    apply N.eqb_eq in Hc as ->.
    intros H%elem_of_rev_1. apply Hin.
    apply elem_of_cons in H as [-> | H]; [by left|].
    right. by apply elem_of_lstrip_with in H.
Qed.

Lemma elem_of_slice_to {A} n (x : A) s : x ∈ slice_to n s -> x ∈ s.
Proof. intros H. eapply elem_of_prefix; [exact H | apply slice_to_prefix]. Qed.

Lemma collapse_go_spaces b s c :
  c ∈ collapse_go b s -> is_space c = true -> c = c_space.
Proof.
  revert b. induction s as [|x s IH]; intros b; cbn [collapse_go].
  - by intros ?%elem_of_nil.
  - destruct (is_space x) eqn:Hx.
    + destruct b; [apply IH|].
      intros [-> | H]%elem_of_cons; [done | by apply (IH true)].
    + intros [-> | H]%elem_of_cons; [congruence | by apply (IH false)].
Qed.

Lemma elem_of_replace1 old new c s :
  c ∈ replace1 old new s -> c ∈ new \/ (c ∈ s /\ c <> old).
Proof.
  unfold replace1. induction s as [|x s IH]; cbn [flat_map].
  - by intros ?%elem_of_nil.
  - intros [H|H]%elem_of_app.
    + destruct (N.eqb_spec x old) as [->|Hne]; [by left|].
      apply list_elem_of_singleton in H as ->. right. split; [by left | done].
    + destruct (IH H) as [?|[? ?]]; [by left|]. right. split; [by right | done].
Qed.

Section TidyItems.
Context {U : Unicode}.

Lemma tidy_chars s c :
  c ∈ tidy s ->
  (is_space c = true -> c = c_space)
  /\ c <> c_bullet /\ c <> c_endash /\ c <> c_emdash.
Proof.
  unfold tidy, strip.
  intros H%elem_of_strip_with%elem_of_re_sub_tail%elem_of_strip_with%elem_of_re_sub_tail.
  apply elem_of_replace1 in H as [->%list_elem_of_singleton|[H Hem]]; [done|].
  apply elem_of_replace1 in H as [->%list_elem_of_singleton|[H Hen]]; [done|].
  apply elem_of_replace1 in H as [H|[H Hb]]; [by apply elem_of_nil in H|].
  split; [|done]. by apply (collapse_go_spaces false (nfkc s)).
Qed.

Lemma cut_chars max_len s c : c ∈ cut max_len s -> c ∈ s.
Proof.
  unfold cut. destruct (len s >? max_len)%Z; [|done].
  by intros H%elem_of_rstrip_with%elem_of_slice_to.
Qed.

Lemma cut_last max_len s c :
  (forall d, last s = Some d -> is_space d = false) ->
  last (cut max_len s) = Some c -> is_space c = false.
Proof.
  intros Hs. unfold cut. destruct (len s >? max_len)%Z; [|apply Hs].
  apply rstrip_with_last.
Qed.

(** X4: a normalized item is one tidy line: its only white space is the
    plain space, it holds no bullet, en dash or em dash, and it does not
    end with white space. *)
Theorem normalized_items_are_tidy (items : list (list N)) (max_len : Z) :
  Forall (fun y =>
            (forall c, c ∈ y -> is_space c = true -> c = c_space)
            /\ (c_bullet ∉ y) /\ (c_endash ∉ y) /\ (c_emdash ∉ y)
            /\ (forall c, last y = Some c -> is_space c = false))
         (_normalize_korean_bullets items max_len).
Proof.
  apply Forall_forall. intros y Hy.
  apply normalize_item in Hy as (raw & _ & [-> _]%bullet_item_Some).
  set (t := tidy (fix_prefix (strip raw))).
  assert (forall c, c ∈ cut max_len t ->
            (is_space c = true -> c = c_space)
            /\ c <> c_bullet /\ c <> c_endash /\ c <> c_emdash) as Hc.
  { intros c Hin%cut_chars. by apply tidy_chars in Hin. }
  split; [intros c Hin; by apply Hc|].
  split; [intros Hin; by apply Hc in Hin as (_ & ? & _)|].
  split; [intros Hin; by apply Hc in Hin as (_ & _ & ? & _)|].
  split; [intros Hin; by apply Hc in Hin as (_ & _ & _ & ?)|].
  intros c. apply cut_last. unfold t, tidy. apply strip_with_last.
Qed.

End TidyItems.

(** ** The category pass chooses the first unused match *)

Section Choices.
Context {U : Unicode}.

Lemma first_match_spec key kv used : forall i,
  match first_match key i kv used with
  | Some (j, v) =>
      (i <= j)%nat /\ (j ∉ used)
      /\ (exists k, kv !! (j - i)%nat = Some (k, v) /\ _matches_key key k v = true)
      /\ forall j' k' v', (i <= j' < j)%nat -> j' ∉ used ->
           kv !! (j' - i)%nat = Some (k', v') -> _matches_key key k' v' = false
  | None =>
      forall j' k' v', (i <= j')%nat -> j' ∉ used ->
        kv !! (j' - i)%nat = Some (k', v') -> _matches_key key k' v' = false
  end.
Proof.
  induction kv as [|[k v] kv IH]; intros i; cbn [first_match].
  - intros j' k' v' _ _ H. by rewrite lookup_nil in H.
  - specialize (IH (S i)).
    assert (forall j', (S i <= j')%nat ->
              ((k, v) :: kv) !! (j' - i)%nat = kv !! (j' - S i)%nat) as Hlk.
    { intros j' Hj. replace (j' - i)%nat with (S (j' - S i)) by lia. done. }
    destruct (decide (i ∈ used)) as [Hi|Hi].
    + destruct (first_match key (S i) kv used) as [[j w]|].
      * destruct IH as (Hle & Hj & (k0 & Hk0 & Hm) & Hbefore).
        split; [lia|]. split; [done|]. split.
        { exists k0. by rewrite Hlk by lia. }
        intros j' k' v' Hr Hn Hl.
        destruct (decide (j' = i)) as [->|Hne]; [done|].
        rewrite Hlk in Hl by lia. apply (Hbefore j' k' v'); [lia|done|done].
      * intros j' k' v' Hr Hn Hl.
        destruct (decide (j' = i)) as [->|Hne]; [done|].
        rewrite Hlk in Hl by lia. apply (IH j' k' v'); [lia|done|done].
    + destruct (_matches_key key k v) eqn:Hm.
      * split; [lia|]. split; [done|]. split.
        { exists k. by rewrite Nat.sub_diag. }
        intros j' k' v' Hr. lia.
      * destruct (first_match key (S i) kv used) as [[j w]|].
        -- destruct IH as (Hle & Hj & (k0 & Hk0 & Hm0) & Hbefore).
           split; [lia|]. split; [done|]. split.
           { exists k0. by rewrite Hlk by lia. }
           intros j' k' v' Hr Hn Hl.
           destruct (decide (j' = i)) as [->|Hne].
           { rewrite Nat.sub_diag in Hl. by injection Hl as <- <-. }
           rewrite Hlk in Hl by lia. apply (Hbefore j' k' v'); [lia|done|done].
        -- intros j' k' v' Hr Hn Hl.
           destruct (decide (j' = i)) as [->|Hne].
           { rewrite Nat.sub_diag in Hl. by injection Hl as <- <-. }
           rewrite Hlk in Hl by lia. apply (IH j' k' v'); [lia|done|done].
Qed.

(** While the limit is out of reach the category pass goes through the
    whole table and makes the choices that [chosen] describes. *)
Lemma category_pass_chosen limit kv keys : forall feats0 used0,
  (len feats0 + Z.of_nat (length keys) < limit)%Z ->
  exists sel,
    chosen kv used0 keys sel
    /\ category_pass limit keys kv feats0 used0
       = Continues (feats0 ++ category_bullets kv keys sel, taken sel ∪ used0).
Proof.
  induction keys as [|key keys IH]; intros feats0 used0 Hlt.
  - exists []. split; [done|]. cbn [category_pass category_bullets].
    rewrite app_nil_r. f_equal. f_equal. unfold taken.
    cbn [omap list_omap list_to_set]. by rewrite (left_id_L ∅ (∪)).
  - cbn [category_pass]. cbn [length] in Hlt.
    pose proof (first_match_spec key kv used0 0) as Hfm.
    destruct (first_match key 0 kv used0) as [[i v]|].
    + destruct Hfm as (_ & Hi & (k & Hk & Hm) & Hbefore).
      rewrite Nat.sub_0_r in Hk.
      destruct (Z.geb_spec (len (feats0 ++ [kv_line key v])) limit) as [Hl|Hl].
      { unfold len in *. rewrite length_app in Hl. cbn [length] in Hl. lia. }
      destruct (IH (feats0 ++ [kv_line key v]) ({[i]} ∪ used0)) as (sel & Hc & Hp).
      { unfold len in *. rewrite length_app. cbn [length]. lia. }
      exists (Some i :: sel). split.
      * cbn [chosen first_unused_match]. split; [|done].
        split; [done|]. split; [by exists k, v|].
        intros j k' v' Hj Hn Hlj. apply (Hbefore j k' v'); [lia | done|].
        by rewrite Nat.sub_0_r.
      * rewrite Hp. cbn [category_bullets mbind option_bind]. rewrite Hk.
        rewrite <- app_assoc. cbn [app]. f_equal. f_equal.
        unfold taken. cbn [omap list_omap id list_to_set].
        by rewrite (assoc_L (∪)), (comm_L (∪) _ {[i]}).
    + destruct (Z.geb_spec (len feats0) limit) as [Hl|Hl]; [lia|].
      destruct (IH feats0 used0) as (sel & Hc & Hp); [lia|].
      exists (None :: sel). split.
      * cbn [chosen first_unused_match]. split; [|done].
        intros j k' v' Hn Hlj. apply (Hfm j k' v'); [lia | done|].
        by rewrite Nat.sub_0_r.
      * rewrite Hp. cbn [category_bullets mbind option_bind]. done.
Qed.

Lemma category_bullets_length kv keys : forall sel,
  (length (category_bullets kv keys sel) <= length keys)%nat.
Proof.
  induction keys as [|key keys IH]; intros [|o sel]; cbn [category_bullets length];
    try lia.
  specialize (IH sel). destruct (o ≫= _) as [[? ?]|]; cbn [length]; lia.
Qed.

Lemma taken_size sel : (size (taken sel) <= length sel)%nat.
Proof.
  unfold taken. induction sel as [|[i|] sel IH]; cbn [omap list_omap id list_to_set length].
  - rewrite size_empty. lia.
  - pose proof (size_union_alt {[i]} (list_to_set (omap id sel) : gset nat)) as Hu.
    pose proof (subseteq_size ((list_to_set (omap id sel) : gset nat) ∖ {[i]})
                  (list_to_set (omap id sel))
                  (subseteq_difference_l _ _ _ (reflexivity _))).
    rewrite size_singleton in Hu. lia.
  - lia.
Qed.

Lemma chosen_length kv keys : forall used sel,
  chosen kv used keys sel -> length sel = length keys.
Proof.
  induction keys as [|key keys IH]; intros used [|o sel]; cbn [chosen length];
    try done.
  intros [_ H]. f_equal. by eapply IH.
Qed.

(** With a pair of its own for every key, every key has a choice. *)
Lemma chosen_all kv keys : forall before used sel,
  chosen kv used keys sel ->
  own_pairs kv before keys = true ->
  (forall i, i ∈ used ->
     exists key0 k v, key0 ∈ before /\ kv !! i = Some (k, v)
                      /\ _matches_key key0 k v = true) ->
  Forall is_Some sel.
Proof.
  induction keys as [|key keys IH]; intros before used [|o sel]; cbn [chosen];
    try done.
  intros [Ho Hc]. cbn [own_pairs]. intros [Hown Hrest]%andb_prop Hinv.
  apply existsb_exists in Hown as ([k v] & Hin & [Hm Hnone]%andb_prop).
  apply list_elem_of_In, list_elem_of_lookup in Hin as [i Hi].
  cbn [fst snd] in Hm, Hnone.
  assert (i ∉ used) as Hfree.
  { intros (key0 & k0 & v0 & Hk0 & Hl0 & Hm0)%Hinv.
    rewrite Hi in Hl0. injection Hl0 as <- <-.
    rewrite forallb_forall in Hnone.
    apply list_elem_of_In, Hnone in Hk0. by rewrite Hm0 in Hk0. }
  destruct o as [j|].
  - constructor; [done|]. apply (IH (before ++ [key]) _ _ Hc Hrest).
    intros i0 [->%elem_of_singleton|Hu]%elem_of_union.
    + destruct Ho as (_ & (k' & v' & Hl & Hm') & _).
      exists key, k', v'. split; [|done]. apply elem_of_app. right. by left.
    + destruct (Hinv i0 Hu) as (key0 & k0 & v0 & ? & ? & ?).
      exists key0, k0, v0. split; [|done]. apply elem_of_app. by left.
  - cbn [first_unused_match] in Ho. by rewrite (Ho i k v Hfree Hi) in Hm.
Qed.

Lemma category_bullets_all kv keys : forall used sel,
  chosen kv used keys sel -> Forall is_Some sel ->
  Forall2 (category_bullet kv) keys (category_bullets kv keys sel).
Proof.
  induction keys as [|key keys IH]; intros used [|o sel]; cbn [chosen];
    try done.
  intros [Ho Hc] Hall. apply Forall_cons in Hall as [[i ->] Hall].
  destruct Ho as (_ & (k & v & Hl & Hm) & _).
  cbn [category_bullets mbind option_bind]. rewrite Hl.
  constructor; [|by eapply IH].
  exists k, v. split; [by eapply list_elem_of_lookup_2 | done].
Qed.

Lemma filter_ext_elem {A} (P Q : A -> Prop) `{!forall x, Decision (P x)}
    `{!forall x, Decision (Q x)} (l : list A) :
  (forall x, x ∈ l -> P x <-> Q x) -> filter P l = filter Q l.
Proof.
  induction l as [|x l IH]; intros Hx; [done|].
  rewrite !filter_cons. rewrite IH by (intros y Hy; apply Hx; by right).
  pose proof (Hx x ltac:(by left)) as Hiff.
  destruct (decide (P x)) as [HP|HP], (decide (Q x)) as [HQ|HQ]; tauto || done.
Qed.

(** The generic pass appends the lines of the unused pairs that are not
    in the list yet, until the limit is reached. *)
Lemma generic_pass_exact limit kv used : forall i feats0,
  (len feats0 < limit)%Z ->
  NoDup ((fun p => kv_line p.1 p.2) <$> unused i kv used) ->
  generic_pass limit i kv used feats0
  = let ls := filter (fun l => l ∉ feats0)
                     ((fun p => kv_line p.1 p.2) <$> unused i kv used) in
    if (limit - len feats0 <=? Z.of_nat (length ls))%Z
    then Returned (feats0 ++ take (Z.to_nat (limit - len feats0)) ls)
    else Continues (feats0 ++ ls).
Proof.
  induction kv as [|[k v] kv IH]; intros i feats0 Hlt Hnd.
  - cbn [generic_pass unused fmap list_fmap filter list_filter length].
    cbv zeta. destruct (Z.leb_spec (limit - len feats0) (Z.of_nat 0)); [lia|].
    by rewrite app_nil_r.
  - cbn [generic_pass unused] in *.
    destruct (decide (i ∈ used)) as [Hi|Hi]; [by apply IH|].
    rewrite fmap_cons in *. cbn [fst snd] in *.
    apply NoDup_cons in Hnd as [Hfresh Hnd].
    cbv zeta. rewrite filter_cons.
    destruct (decide (kv_line k v ∉ feats0)) as [Hnew|Hold].
    + rewrite bool_decide_eq_false_2 by done.
      set (rest := (fun p => kv_line p.1 p.2) <$> unused (S i) kv used) in *.
      assert (filter (fun l => l ∉ feats0 ++ [kv_line k v]) rest
              = filter (fun l => l ∉ feats0) rest) as Hf.
      { apply filter_ext_elem. intros x Hx. rewrite elem_of_app, list_elem_of_singleton.
        split; [tauto|]. intros Hn [?| ->]; done. }
      assert (len (feats0 ++ [kv_line k v]) = len feats0 + 1)%Z as Hlen.
      { unfold len. rewrite length_app. cbn [length]. lia. }
      cbn [length].
      destruct (Z.geb_spec (len (feats0 ++ [kv_line k v])) limit) as [Hl|Hl].
      * destruct (Z.leb_spec (limit - len feats0)
                    (Z.of_nat (S (length (filter (fun l => l ∉ feats0) rest)))));
          [|lia].
        replace (Z.to_nat (limit - len feats0)) with 1%nat by lia.
        cbn [take]. by rewrite take_0.
      * rewrite (IH (S i) _ Hl Hnd). cbv zeta. fold rest. rewrite Hf, Hlen.
        destruct (Z.leb_spec (limit - (len feats0 + 1))
                    (Z.of_nat (length (filter (fun l => l ∉ feats0) rest))));
          destruct (Z.leb_spec (limit - len feats0)
                    (Z.of_nat (S (length (filter (fun l => l ∉ feats0) rest)))));
          try lia.
        -- replace (Z.to_nat (limit - len feats0))
             with (S (Z.to_nat (limit - (len feats0 + 1)))) by lia.
           cbn [take]. by rewrite <- app_assoc.
        -- by rewrite <- app_assoc.
    + apply dec_stable in Hold.
      rewrite bool_decide_eq_true_2 by done.
      destruct (Z.geb_spec (len feats0) limit) as [Hl|Hl]; [lia|].
      by rewrite (IH (S i) _ Hlt Hnd).
Qed.

End Choices.

Lemma filter_notin_length {A} `{!EqDecision A} (cs ls : list A) :
  NoDup ls ->
  (length ls <= length (filter (fun l => l ∉ cs) ls) + length cs)%nat.
Proof.
  intros Hnd.
  pose proof (filter_app_complement (fun l => l ∉ cs) ls) as Hp.
  apply Permutation_length in Hp. rewrite length_app in Hp.
  assert (length (filter (fun l => ~ (l ∉ cs)) ls) <= length cs)%nat; [|lia].
  apply submseteq_length, NoDup_submseteq; [by apply NoDup_filter|].
  intros x [Hx _]%list_elem_of_filter. by apply dec_stable in Hx.
Qed.

Lemma sublist_same_length {A} (l1 l2 : list A) :
  l1 `sublist_of` l2 -> (length l2 <= length l1)%nat -> l1 = l2.
Proof.
  induction 1 as [|x l1 l2 Hs IH|x l1 l2 Hs IH]; cbn [length]; intros Hl.
  - done.
  - f_equal. apply IH. lia.
  - apply sublist_length in Hs. lia.
Qed.

Lemma omap_full_length {A B} (f : A -> option B) (l : list A) :
  (length l <= length (omap f l))%nat ->
  Forall2 (fun x y => f x = Some y) l (omap f l).
Proof.
  induction l as [|x l IH]; cbn [omap list_omap length]; [constructor|].
  pose proof (omap_length_le f l).
  destruct (f x) as [y|] eqn:Hx; cbn [length]; intros Hl; [|lia].
  constructor; [done|]. apply IH. lia.
Qed.

Section Kept.
Context {U : Unicode}.

(** Items that the loop body keeps, with cleaned forms of different keys,
    are all appended, cleaned. *)
Lemma normalize_loop_kept max_len items : forall ys out seen,
  (forall k, k ∈ seen <-> k ∈ map lower out) ->
  Forall2 (fun x y => bullet_item max_len x = Some y) items ys ->
  NoDup (map lower (out ++ ys)) ->
  normalize_loop max_len items out seen = out ++ ys.
Proof.
  induction items as [|x items IH]; intros ys out seen Hseen Hk Hnd;
    inversion Hk as [|? y ? ys' Hx Hk']; subst; cbn [normalize_loop].
  - by rewrite app_nil_r.
  - rewrite Hx. destruct (decide (lower y ∈ seen)) as [Hin|Hin].
    + exfalso. rewrite map_app in Hnd. apply NoDup_app in Hnd as (_ & Hd & _).
      apply (Hd (lower y)); [by apply Hseen | by left].
    + rewrite (IH ys' (out ++ [y]) ({[lower y]} ∪ seen)).
      * by rewrite <- app_assoc.
      * intros k. rewrite map_app, elem_of_app, elem_of_union, <- Hseen.
        cbn. rewrite list_elem_of_singleton, elem_of_singleton. tauto.
      * done.
      * by rewrite <- app_assoc.
Qed.

End Kept.

(** ** Fifty pairs and a limit of 24: the list in full *)

Section FiftyPairsList.
Context {U : Unicode}.

(** C3, as amended: with 50 distinct pairs and a limit of 24, the list
    handed to the normalizer has exactly 24 entries: first, for each
    category in the order of the table, the bullet of the first pair not
    yet used that matches it (so one bullet for each of the 9 categories
    when each has a pair that matches no category before it), then the
    lines of the pairs not used, in their order.  The features are what
    the normalizer makes of this list, in that order: at most 24, and
    24, the cleaned entries, exactly when the normalizer keeps them
    all. *)
Theorem fifty_pairs_fill_the_raw_list
    (pdf_bytes : pdf) (text : list N) (desc_max summary_max : Z) :
  let kv := extract_kv_candidates text 500 in
  let raw := gather kv (extract_bullets text 300) 24 in
  let r := rules_build_fields pdf_bytes text desc_max summary_max 24 in
  length kv = 50%nat -> NoDup kv ->
  exists sel,
    let cats := category_bullets kv REQUIRED_KEYS sel in
    let gens := take (24 - length cats) (generic_lines kv sel cats) in
    chosen kv ∅ REQUIRED_KEYS sel
    /\ raw = cats ++ gens
    /\ length raw = 24%nat
    /\ (own_pairs kv [] REQUIRED_KEYS = true ->
        Forall2 (category_bullet kv) REQUIRED_KEYS cats)
    /\ features r = _normalize_korean_bullets raw 64
    /\ (exists fc fg, features r = fc ++ fg
                      /\ Forall (cleaned_from cats) fc
                      /\ Forall (cleaned_from gens) fg)
    /\ (length (features r) <= 24)%nat
    /\ (forall ys, Forall2 (fun x y => bullet_item 64 x = Some y) raw ys ->
                   NoDup (lower <$> ys) -> features r = ys)
    /\ (length (features r) = 24%nat ->
        Forall2 (fun x y => bullet_item 64 x = Some y) raw (features r)
        /\ NoDup (lower <$> features r)).
Proof.
  intros kv raw r Hlen Hnd.
  destruct (category_pass_chosen 24 kv REQUIRED_KEYS [] ∅) as (sel & Hsel & Hcp).
  { vm_compute. reflexivity. }
  exists sel. intros cats gens. cbn [app] in Hcp. fold cats in Hcp.
  rewrite (right_id_L ∅ (∪)) in Hcp.
  pose proof (category_bullets_length kv REQUIRED_KEYS sel) as Hc9.
  fold cats in Hc9. change (length REQUIRED_KEYS) with 9%nat in Hc9.
  pose proof (chosen_length _ _ _ _ Hsel) as Hsl.
  change (length REQUIRED_KEYS) with 9%nat in Hsl.
  pose proof (taken_size sel) as Hts.
  pose proof (unused_lines_NoDup text (taken sel) Hnd) as Hnd'. fold kv in Hnd'.
  pose proof (unused_length 0 kv (taken sel)) as Hul.
  pose proof (filter_notin_length cats _ Hnd') as Hfl.
  rewrite length_fmap in Hfl. fold (generic_lines kv sel cats) in Hfl.
  assert (raw = cats ++ gens) as Hraw.
  { unfold raw, gather. rewrite Hcp.
    rewrite generic_pass_exact by (done || (unfold len; lia)).
    cbv zeta. fold (generic_lines kv sel cats).
    destruct (Z.leb_spec (24 - len cats)
                (Z.of_nat (length (generic_lines kv sel cats)))) as [_|Hgt];
      [|unfold len in Hgt; lia].
    replace (Z.to_nat (24 - len cats)) with (24 - length cats)%nat
      by (unfold len; lia).
    done. }
  assert (length raw = 24%nat) as Hraw24.
  { rewrite Hraw, length_app. unfold gens. rewrite length_take. lia. }
  assert (features r = _normalize_korean_bullets raw 64) as Hfeat.
  { cbn [r rules_build_fields features]. unfold rules_features. fold kv raw.
    rewrite slice_to_nonneg by lia. apply take_ge.
    destruct (normalize_loop_sublist 64 raw [] ∅) as (rest & Hr & Hsub).
    unfold _normalize_korean_bullets. rewrite Hr. cbn [app].
    apply sublist_length in Hsub.
    pose proof (omap_length_le (bullet_item 64) raw).
    change (Z.to_nat 24) with 24%nat. lia. }
  split; [done|]. split; [done|]. split; [done|]. split.
  { intros Hown. apply (category_bullets_all kv REQUIRED_KEYS ∅ sel Hsel).
    apply (chosen_all kv REQUIRED_KEYS [] ∅ sel Hsel Hown).
    intros i Hi. by apply elem_of_empty in Hi. }
  split; [done|]. split.
  { destruct (normalize_app_split 24 cats gens) as (fc & fg & Hsplit & Hfc & Hfg).
    exists fc, fg. split; [|done]. rewrite <- Hsplit, <- Hraw, Hfeat.
    symmetry. apply take_ge.
    destruct (normalize_loop_sublist 64 raw [] ∅) as (rest & Hr & Hsub).
    unfold _normalize_korean_bullets. rewrite Hr. cbn [app].
    apply sublist_length in Hsub.
    pose proof (omap_length_le (bullet_item 64) raw). lia. }
  split.
  { rewrite Hfeat.
    destruct (normalize_loop_sublist 64 raw [] ∅) as (rest & Hr & Hsub).
    unfold _normalize_korean_bullets. rewrite Hr. cbn [app].
    apply sublist_length in Hsub.
    pose proof (omap_length_le (bullet_item 64) raw). lia. }
  split.
  { intros ys Hk Hd. rewrite Hfeat. unfold _normalize_korean_bullets.
    rewrite (normalize_loop_kept 64 raw ys [] ∅); [done| |done|done].
    intros k. cbn [map]. rewrite elem_of_nil. split; [|done].
    intros Hk'. by apply elem_of_empty in Hk'. }
  rewrite Hfeat. intros H24. split; [|apply normalize_NoDup].
  revert H24. unfold _normalize_korean_bullets.
  destruct (normalize_loop_sublist 64 raw [] ∅) as (rest & Hr & Hsub).
  rewrite Hr. cbn [app]. intros H24.
  pose proof (sublist_length _ _ Hsub) as Hle.
  pose proof (omap_length_le (bullet_item 64) raw) as Hle'.
  rewrite (sublist_same_length _ _ Hsub) by lia.
  apply omap_full_length. lia.
Qed.

End FiftyPairsList.

Lemma fifty_pairs_fill_the_raw_list_witness :
  let kv := extract_kv_candidates numbered_pairs_text 500 in
  let raw := gather (U:=plain_tables) kv
               (extract_bullets numbered_pairs_text 300) 24 in
  let r := rules_build_fields (U:=plain_tables) None numbered_pairs_text
             40 200 24 in
  (length kv = 50%nat /\ own_pairs (U:=plain_tables) kv [] REQUIRED_KEYS = true
   /\ length (features r) = 24%nat)
  /\ exists sel,
    let cats := category_bullets kv REQUIRED_KEYS sel in
    let gens := take (24 - length cats) (generic_lines kv sel cats) in
    chosen (U:=plain_tables) kv ∅ REQUIRED_KEYS sel
    /\ raw = cats ++ gens
    /\ length raw = 24%nat
    /\ (own_pairs (U:=plain_tables) kv [] REQUIRED_KEYS = true ->
        Forall2 (category_bullet (U:=plain_tables) kv) REQUIRED_KEYS cats)
    /\ features r = _normalize_korean_bullets (U:=plain_tables) raw 64
    /\ (exists fc fg, features r = fc ++ fg
                      /\ Forall (cleaned_from (U:=plain_tables) cats) fc
                      /\ Forall (cleaned_from (U:=plain_tables) gens) fg)
    /\ (length (features r) <= 24)%nat
    /\ (forall ys, Forall2 (fun x y => bullet_item (U:=plain_tables) 64 x = Some y)
                     raw ys ->
                   NoDup (lower (Unicode:=plain_tables) <$> ys) ->
                   features r = ys)
    /\ (length (features r) = 24%nat ->
        Forall2 (fun x y => bullet_item (U:=plain_tables) 64 x = Some y)
          raw (features r)
        /\ NoDup (lower (Unicode:=plain_tables) <$> features r)).
Proof.
  intros kv raw r. split.
  - repeat split; vm_compute; reflexivity.
  - apply (fifty_pairs_fill_the_raw_list (U:=plain_tables) None
             numbered_pairs_text 40 200).
    + vm_compute. reflexivity.
    + apply (bool_decide_unpack _). vm_compute. exact I.
Defined.

(** ** What the harvesters return *)

Lemma kv_loop_pairs max_items lines out :
  Forall (fun p => (1 <= len p.1 <= 60)%Z /\ p.2 <> []
                   /\ strip p.1 = p.1 /\ strip p.2 = p.2) out ->
  Forall (fun p => (1 <= len p.1 <= 60)%Z /\ p.2 <> []
                   /\ strip p.1 = p.1 /\ strip p.2 = p.2)
         (kv_loop max_items lines out).
Proof.
  revert out. induction lines as [|line lines IH]; intros out Hout;
    cbn [kv_loop]; [done|].
  set (s := strip line).
  destruct (is_empty s || (len s >? 300)%Z); [by apply IH|].
  destruct (if contains [c_colon] s then split_once [c_colon] s
            else if contains [c_space; c_hyphen; c_space] s
                 then split_once [c_space; c_hyphen; c_space] s
                 else None) as [[k v]|]; [|by apply IH].
  set (out' := if _ : bool then out ++ [(strip k, strip v)] else out).
  assert (Forall (fun p => (1 <= len p.1 <= 60)%Z /\ p.2 <> []
                           /\ strip p.1 = p.1 /\ strip p.2 = p.2) out') as Hout'.
  { unfold out'.
    destruct (Z.leb_spec 1 (len (strip k))); cbn [andb]; [|done].
    destruct (Z.leb_spec (len (strip k)) 60); cbn [andb]; [|done].
    destruct (is_empty (strip v)) eqn:Hv; cbn [negb]; [done|].
    apply Forall_app. split; [done|]. constructor; [|constructor].
    cbn [fst snd]. split; [lia|]. split; [by destruct (strip v)|].
    unfold strip. by rewrite !strip_with_idem. }
  destruct (len out' >=? max_items)%Z; [done | by apply IH].
Qed.

Lemma kv_loop_count max_items lines out :
  (len out < max_items)%Z -> (len (kv_loop max_items lines out) <= max_items)%Z.
Proof.
  revert out. induction lines as [|line lines IH]; intros out Hout;
    cbn [kv_loop]; [lia|].
  destruct (is_empty (strip line) || (len (strip line) >? 300)%Z); [by apply IH|].
  destruct (if contains [c_colon] (strip line) then _ else _) as [[k v]|];
    [|by apply IH].
  set (out' := if _ : bool then out ++ [(strip k, strip v)] else out).
  assert (len out' <= len out + 1)%Z as Hle.
  { unfold out', len. destruct (_ && _ && _); [|lia].
    rewrite length_app. cbn [length]. lia. }
  destruct (Z.geb_spec (len out') max_items); [lia | by apply IH].
Qed.

(** X5: every harvested pair has a key of 1 to 60 characters without a
    colon and a value that is not empty, both without white space around
    them; and at most [max_items] pairs are harvested. *)
Theorem harvested_pairs_are_well_formed (text : list N) (max_items : Z) :
  Forall (fun p => (1 <= len p.1 <= 60)%Z /\ p.2 <> [] /\ (c_colon ∉ p.1)
                   /\ strip p.1 = p.1 /\ strip p.2 = p.2)
         (extract_kv_candidates text max_items)
  /\ ((1 <= max_items)%Z ->
      (len (extract_kv_candidates text max_items) <= max_items)%Z).
Proof.
  split.
  - apply Forall_forall. intros [k v] Hin.
    pose proof (kv_loop_pairs max_items (splitlines text) [] ltac:(constructor)) as HF.
    apply (proj1 (Forall_forall _ _) HF) in Hin as Hp.
    destruct Hp as (? & ? & ? & ?). cbn [fst snd] in *.
    repeat (split; [done|]). split; [|done].
    by apply (extract_kv_no_colon text max_items k v).
  - intros Hm. apply kv_loop_count. unfold len. cbn [length]. lia.
Qed.

Lemma harvested_pairs_are_well_formed_witness :
  (len (extract_kv_candidates (u8 "CPU: i7") 500) <= 500)%Z.
Proof.
  apply (harvested_pairs_are_well_formed (u8 "CPU: i7") 500). lia.
Defined.

Lemma bullets_loop_items max_items lines feats :
  let edge := [c_space; c_hyphen; c_endash; c_emdash; c_middot; c_colon; c_star] in
  let ok b := b <> []
              /\ (forall c, head b = Some c -> inb c edge = false)
              /\ (forall c, last b = Some c -> inb c edge = false) in
  Forall ok feats -> Forall ok (bullets_loop max_items lines feats).
Proof.
  intros edge ok. revert feats.
  induction lines as [|line lines IH]; intros feats Hf; cbn [bullets_loop]; [done|].
  destruct (strip line) as [|c0 s0] eqn:Hs; [by apply IH|].
  set (feats' := if _ : bool then _ else feats).
  assert (Forall ok feats') as Hf'.
  { unfold feats'. destruct (_ || _); [|done].
    set (s2 := strip_chars _ _).
    destruct (is_empty s2) eqn:He; [done|].
    apply Forall_app. split; [done|]. constructor; [|constructor].
    split; [by destruct s2|]. split.
    - apply (strip_with_head (fun c => inb c edge)).
    - apply (strip_with_last (fun c => inb c edge)). }
  destruct (len feats' >=? max_items)%Z; [done | by apply IH].
Qed.

Lemma bullets_loop_count max_items lines feats :
  (len feats < max_items)%Z ->
  (len (bullets_loop max_items lines feats) <= max_items)%Z.
Proof.
  revert feats. induction lines as [|line lines IH]; intros feats Hf;
    cbn [bullets_loop]; [lia|].
  destruct (strip line) as [|c0 s0] eqn:Hs; [by apply IH|].
  set (feats' := if _ : bool then _ else feats).
  assert (len feats' <= len feats + 1)%Z as Hle.
  { unfold feats', len. destruct (_ || _); [|lia].
    destruct (is_empty _); [lia|]. rewrite length_app. cbn [length]. lia. }
  destruct (Z.geb_spec (len feats') max_items); [lia | by apply IH].
Qed.

(** X6: every harvested bullet is not empty and neither starts nor ends
    with a space, a hyphen, a dash, a middle dot, a colon or a star; and
    at most [max_items] bullets are harvested. *)
Theorem harvested_bullets_are_trimmed (text : list N) (max_items : Z) :
  let edge := [c_space; c_hyphen; c_endash; c_emdash; c_middot; c_colon; c_star] in
  Forall (fun b => b <> []
                   /\ (forall c, head b = Some c -> inb c edge = false)
                   /\ (forall c, last b = Some c -> inb c edge = false))
         (extract_bullets text max_items)
  /\ ((1 <= max_items)%Z ->
      (len (extract_bullets text max_items) <= max_items)%Z).
Proof.
  split.
  - apply (bullets_loop_items max_items (splitlines text) []). constructor.
  - intros Hm. apply bullets_loop_count. unfold len. cbn [length]. lia.
Qed.

Lemma harvested_bullets_are_trimmed_witness :
  (len (extract_bullets (u8 "- Dual 10GbE LAN") 300) <= 300)%Z.
Proof.
  apply (harvested_bullets_are_trimmed (u8 "- Dual 10GbE LAN") 300). lia.
Defined.

(** ** More on the title *)

(** X9: a metadata title of 2 to 100 characters decides the name, whatever
    the spans and the text are: the name is the first model code in the
    title, or the title itself when it holds none. *)
Theorem metadata_title_wins {U : Unicode}
    (doc : fitz_document) (meta : gmap string (list N))
    (title text : list N) :
  doc_metadata doc = Some meta ->
  meta !! "title"%string = Some title ->
  (2 <= len (strip title) <= 100)%Z ->
  guess_title_from_pdf (Some doc) text
  = default (strip title) (re_search MODEL_RX (strip title)).
Proof.
  intros Hmeta Htitle [H2 H100].
  unfold guess_title_from_pdf. cbn [mbind option_bind].
  unfold title_from_metadata. rewrite Hmeta. cbv zeta.
  change (default ∅ (Some meta)) with meta. rewrite Htitle.
  change (default [] (Some title)) with title.
  remember (strip title) as v eqn:Ev.
  destruct (is_empty v) eqn:Hv;
    [destruct v; [unfold len in H2; cbn [length] in H2; lia | done]|].
  cbn [negb andb].
  destruct (Z.leb_spec 2 (len v)); [|lia].
  destruct (Z.leb_spec (len v) 100); [|lia]. cbn [andb].
  destruct (re_search MODEL_RX v) as [m|] eqn:Hm.
  - change (default v (Some m)) with m.
    by apply model_match in Hm as (_ & -> & _).
  - change (default v None) with v. subst v. unfold strip.
    by rewrite strip_with_idem.
Qed.

Lemma metadata_title_wins_witness :
  guess_title_from_pdf (U:=plain_tables) (Some titled_doc) (u8 "CPU: i7")
  = u8 "XR-200".
Proof.
  apply (metadata_title_wins (U:=plain_tables) titled_doc
           {[ "title"%string := u8 " XR-200 Edge Server " ]}
           (u8 " XR-200 Edge Server ") (u8 "CPU: i7")).
  - reflexivity.
  - reflexivity.
  - vm_compute. split; discriminate.
Defined.

(** ** Every feature can be traced to a line of the text *)

Section Trace.
Context {U : Unicode}.

Lemma generic_pass_trace limit kv0 i kv used feats0 :
  (forall p, p ∈ kv -> p ∈ kv0) ->
  exists gens,
    Forall (generic_bullet kv0) gens
    /\ match generic_pass limit i kv used feats0 with
       | Returned feats | Continues feats => feats = feats0 ++ gens
       end.
Proof.
  revert i feats0. induction kv as [|[k v] kv IH]; intros i feats0 Hsub.
  - exists []. cbn [generic_pass]. by rewrite app_nil_r.
  - assert (forall p, p ∈ kv -> p ∈ kv0) as Hsub' by (intros p ?; apply Hsub; by right).
    cbn [generic_pass].
    destruct (decide (i ∈ used)); [by apply IH|].
    destruct (bool_decide (kv_line k v ∈ feats0)).
    + destruct (len feats0 >=? limit)%Z; [|by apply IH].
      exists []. by rewrite app_nil_r.
    + assert (generic_bullet kv0 (kv_line k v)) as Hgb.
      { exists k, v. split; [apply Hsub; by left | done]. }
      destruct (len (feats0 ++ [kv_line k v]) >=? limit)%Z.
      * exists [kv_line k v]. split; [constructor; [done | constructor] | done].
      * destruct (IH (S i) (feats0 ++ [kv_line k v]) Hsub') as (gens & Hg & Hr).
        exists (kv_line k v :: gens). split; [by constructor|].
        destruct (generic_pass _ _ _ _ _) as [feats|feats];
          rewrite Hr; by rewrite <- app_assoc.
Qed.

Lemma bullet_pass_trace limit (bullets0 bullets : list (list N)) feats0 :
  (forall b, b ∈ bullets -> b ∈ bullets0) ->
  exists more,
    Forall (fun g => exists b, b ∈ bullets0 /\ g = bullet_line b) more
    /\ bullet_pass limit bullets feats0 = feats0 ++ more.
Proof.
  revert feats0. induction bullets as [|b bullets IH]; intros feats0 Hsub.
  - exists []. cbn [bullet_pass]. by rewrite app_nil_r.
  - assert (forall x, x ∈ bullets -> x ∈ bullets0) as Hsub' by (intros x ?; apply Hsub; by right).
    cbn [bullet_pass].
    destruct (bool_decide (bullet_line b ∈ feats0)).
    + destruct (len feats0 >=? limit)%Z; [|by apply IH].
      exists []. by rewrite app_nil_r.
    + destruct (len (feats0 ++ [bullet_line b]) >=? limit)%Z.
      * exists [bullet_line b]. split; [|done].
        constructor; [|constructor]. exists b. split; [apply Hsub; by left | done].
      * destruct (IH (feats0 ++ [bullet_line b]) Hsub') as (more & Hm & ->).
        exists (bullet_line b :: more). rewrite <- app_assoc. split; [|done].
        constructor; [|done]. exists b. split; [apply Hsub; by left | done].
Qed.

(** X10: nothing is invented.  The list handed to the normalizer is made
    of category bullets, at most one per category and in the order of the
    table, each with the value of a harvested pair that matches the
    category, followed by lines of harvested pairs and harvested bullets;
    and every feature is what the normalizer makes of one of them. *)
Theorem features_are_traceable
    (pdf_bytes : pdf) (text : list N) (desc_max summary_max limit : Z) :
  let kv := extract_kv_candidates text 500 in
  let bullets := extract_bullets text 300 in
  let r := rules_build_fields pdf_bytes text desc_max summary_max limit in
  exists ks cats rest,
    gather kv bullets limit = cats ++ rest
    /\ ks `sublist_of` REQUIRED_KEYS
    /\ Forall2 (category_bullet kv) ks cats
    /\ Forall (fun g => generic_bullet kv g
                        \/ exists b, b ∈ bullets /\ g = bullet_line b) rest
    /\ Forall (cleaned_from (cats ++ rest)) (features r).
Proof.
  intros kv bullets r.
  assert (exists ks cats rest,
    gather kv bullets limit = cats ++ rest
    /\ ks `sublist_of` REQUIRED_KEYS
    /\ Forall2 (category_bullet kv) ks cats
    /\ Forall (fun g => generic_bullet kv g
                        \/ exists b, b ∈ bullets /\ g = bullet_line b) rest)
    as (ks & cats & rest & Hg & Hks & Hcats & Hrest).
  { destruct (category_pass_spec limit REQUIRED_KEYS kv [] ∅)
      as (ks & cats & Hks & Hcats & Hcp).
    exists ks, cats. unfold gather.
    destruct (category_pass limit REQUIRED_KEYS kv [] ∅) as [feats|[feats used]].
    - destruct Hcp as [-> _]. exists []. rewrite app_nil_r. by repeat split.
    - destruct Hcp as [-> _]. cbn [app].
      destruct (generic_pass_trace limit kv 0 kv used cats) as (gens & Hgens & Hgp);
        [done|].
      assert (Forall (fun g => generic_bullet kv g
                \/ exists b, b ∈ bullets /\ g = bullet_line b) gens) as Hgens'.
      { eapply Forall_impl; [exact Hgens|]. by left. }
      destruct (generic_pass limit 0 kv used cats) as [feats|feats]; subst feats.
      + exists gens. by repeat split.
      + destruct (bullet_pass_trace limit bullets bullets (cats ++ gens))
          as (more & Hmore & ->); [done|].
        exists (gens ++ more). rewrite app_assoc. repeat split; [done..|].
        apply Forall_app. split; [done|].
        eapply Forall_impl; [exact Hmore|]. by right. }
  exists ks, cats, rest. repeat (split; [done|]).
  apply Forall_forall. intros f Hf.
  cbn [r rules_build_fields features] in Hf. unfold rules_features in Hf.
  fold kv bullets in Hf. rewrite Hg in Hf.
  apply elem_of_slice_to in Hf. by apply normalize_item in Hf.
Qed.

End Trace.

(** ** The undo history *)

Ltac session_simpl :=
  cbn [fst snd get_state set_state show with_stack push_undo var_name var_desc
       var_summary var_feats last_thumb_path undo_stack initial_state shown].

Lemma undo_once_snoc st stack state :
  undo_stack st = stack ++ [state] ->
  (undo_once st).1 = true
  /\ get_state (undo_once st).2 = state
  /\ undo_stack (undo_once st).2 = stack
  /\ initial_state (undo_once st).2 = initial_state st.
Proof.
  intros Hs. unfold undo_once. rewrite Hs, rev_app_distr. cbn [rev app].
  destruct state as [[[[n d] s] f] t]. session_simpl.
  by rewrite rev_involutive.
Qed.

Lemma undo_once_empty st :
  undo_stack st = [] ->
  (undo_once st).1 = false
  /\ get_state (undo_once st).2 = get_state st
  /\ undo_stack (undo_once st).2 = []
  /\ initial_state (undo_once st).2 = initial_state st.
Proof. intros Hs. unfold undo_once. rewrite Hs. by session_simpl. Qed.

(** X11: a snapshot taken with [push_undo] is what the next [undo_once]
    restores, whatever was edited in between: the five fields are those
    of the snapshot and the history is as it was before the snapshot. *)
Theorem undo_restores_snapshot (st edited : session) :
  undo_stack edited = undo_stack (push_undo st) ->
  (undo_once edited).1 = true
  /\ get_state (undo_once edited).2 = get_state st
  /\ undo_stack (undo_once edited).2 = undo_stack st.
Proof.
  intros Hs. cbn [push_undo with_stack undo_stack] in Hs.
  by destruct (undo_once_snoc edited _ _ Hs) as (? & ? & ? & _).
Qed.

Lemma undo_restores_snapshot_witness :
  let st := with_stack [] edited_session in
  let edited := set_state (u8 "n", u8 "d", u8 "s", u8 "- f 1", None) (push_undo st) in
  (undo_once edited).1 = true
  /\ get_state (undo_once edited).2 = get_state st
  /\ undo_stack (undo_once edited).2 = undo_stack st.
Proof.
  intros st edited. apply (undo_restores_snapshot st edited). reflexivity.
Defined.

Lemma undo_n_stack stack : forall st state,
  undo_stack st = state :: stack ->
  get_state (undo_n (length (state :: stack)) st) = state
  /\ undo_stack (undo_n (length (state :: stack)) st) = []
  /\ initial_state (undo_n (length (state :: stack)) st) = initial_state st.
Proof.
  induction stack as [|top stack IH] using rev_ind; intros st state Hs.
  - cbn [length undo_n].
    destruct (undo_once_snoc st [] state Hs) as (_ & ? & ? & ?). done.
  - rewrite app_comm_cons in Hs.
    destruct (undo_once_snoc st _ _ Hs) as (_ & _ & Hstack & Hinit).
    cbn [length undo_n]. rewrite length_app. cbn [length].
    replace (length stack + 1)%nat with (S (length stack)) by lia.
    destruct (IH _ _ Hstack) as (? & ? & ?). cbn [length] in *.
    split; [done|]. split; [done | congruence].
Qed.

(** X12: with [n] snapshots in the history, [n] calls of [undo_once] lead
    to the oldest snapshot and an empty history, and one more call
    returns [False] and changes none of the fields. *)
Theorem undo_all_reaches_oldest (st : session) (oldest : snapshot)
    (later : list snapshot) :
  undo_stack st = oldest :: later ->
  let st' := undo_n (length (oldest :: later)) st in
  get_state st' = oldest
  /\ undo_stack st' = []
  /\ (undo_once st').1 = false
  /\ get_state (undo_once st').2 = oldest.
Proof.
  intros Hs st'. destruct (undo_n_stack later st oldest Hs) as (Hg & He & _).
  fold st' in Hg, He.
  destruct (undo_once_empty st' He) as (? & Hg' & _).
  split; [done|]. split; [done|]. split; [done | congruence].
Qed.

Lemma undo_all_reaches_oldest_witness :
  let st' := undo_n 2 edited_session in
  get_state st' = (u8 "a", u8 "b", u8 "c", u8 "- d 1", None)
  /\ undo_stack st' = []
  /\ (undo_once st').1 = false
  /\ get_state (undo_once st').2 = (u8 "a", u8 "b", u8 "c", u8 "- d 1", None).
Proof.
  apply (undo_all_reaches_oldest edited_session
           (u8 "a", u8 "b", u8 "c", u8 "- d 1", None)
           [(u8 "XR", u8 "Edge", u8 "Edge server", u8 "- CPU: i5", None)]).
  reflexivity.
Defined.

(** X13: [undo_to_initial] with an initial state restores its five
    fields and empties the history, so that the next [undo_once] returns
    [False]; without an initial state it returns [False] and changes
    neither the fields nor the history. *)
Theorem undo_to_initial_resets (st : session) :
  match initial_state st with
  | Some state =>
      (undo_to_initial st).1 = true
      /\ get_state (undo_to_initial st).2 = state
      /\ undo_stack (undo_to_initial st).2 = []
      /\ initial_state (undo_to_initial st).2 = Some state
      /\ (undo_once (undo_to_initial st).2).1 = false
  | None =>
      (undo_to_initial st).1 = false
      /\ get_state (undo_to_initial st).2 = get_state st
      /\ undo_stack (undo_to_initial st).2 = undo_stack st
  end.
Proof.
  unfold undo_to_initial. destruct (initial_state st) as [state|] eqn:Hi.
  - destruct state as [[[[n d] s] f] t]. unfold undo_once. session_simpl.
    by rewrite Hi.
  - by session_simpl.
Qed.

(** ** Lines joined and split again *)

Lemma splitlines_go_one_line x : forall cur rest,
  one_line x ->
  splitlines_go cur (x ++ rest) = splitlines_go (rev x ++ cur) rest.
Proof.
  induction x as [|c x IH]; intros cur rest Hx; [done|].
  apply Forall_cons in Hx as [Hc Hx]. cbn [app splitlines_go]. rewrite Hc.
  rewrite IH by done. cbn [rev]. by rewrite <- app_assoc.
Qed.

Lemma splitlines_go_lf cur rest :
  splitlines_go cur (c_lf :: rest) = rev cur :: splitlines_go [] rest.
Proof. cbn [splitlines_go]. change (is_linebreak c_lf) with true. by destruct rest. Qed.

Lemma splitlines_join xs :
  Forall one_line xs -> last xs <> Some [] ->
  splitlines (join [c_lf] xs) = xs.
Proof.
  unfold splitlines. induction xs as [|x xs IH]; intros Hx Hl; [done|].
  apply Forall_cons in Hx as [Hx Hxs]. destruct xs as [|y xs].
  - cbn [join]. rewrite <- (app_nil_r x) at 1.
    rewrite splitlines_go_one_line by done. rewrite app_nil_r.
    cbn [splitlines_go]. destruct x as [|c x]; [done|].
    destruct (rev (c :: x)) eqn:Hr; [|by rewrite <- Hr, rev_involutive].
    apply (f_equal (@rev N)) in Hr. by rewrite rev_involutive in Hr.
  - cbn [join]. rewrite splitlines_go_one_line by done. rewrite app_nil_r.
    cbn [app]. rewrite splitlines_go_lf, rev_involutive. f_equal.
    apply IH; [done|]. by rewrite last_cons_cons in Hl.
Qed.

Lemma basename_go_one_line s : forall cur,
  one_line cur -> one_line s -> one_line (basename_go cur s).
Proof.
  induction s as [|c s IH]; intros cur Hcur Hs; cbn [basename_go].
  - by apply Forall_rev.
  - apply Forall_cons in Hs as [Hc Hs].
    destruct (c =? 47); apply IH; try done; by constructor.
Qed.

(** X14: when the name, the thumbnail path, the description and the
    summary hold no line break and the features are non-empty lines, the
    exported Markdown read line by line is the eleven fixed lines followed
    by the features, or by a single hyphen when there is no feature. *)
Theorem export_markdown_lines (name : list N) (thumb_path : option (list N))
    (desc summary : list N) (feats : list (list N)) :
  one_line name -> one_line (default [] thumb_path) ->
  one_line desc -> one_line summary ->
  Forall (fun f => f <> [] /\ one_line f) feats ->
  splitlines (export_markdown name thumb_path desc summary feats)
  = [ u8 "**제품명**: " ++ name;
      u8 "**썸네일**: " ++ match thumb_path with
                           | Some (c :: p) => basename (c :: p)
                           | _ => []
                           end;
      []; u8 "### 제품 설명"; desc; []; u8 "### 제품 요약"; summary; [];
      u8 "### 특징"; u8 "**◆ 주요 특징 ◆**" ]
    ++ match feats with [] => [[c_hyphen]] | _ => feats end.
Proof.
  intros Hn Ht Hd Hs Hf. unfold export_markdown.
  assert (one_line (match thumb_path with
                    | Some (c :: p) => basename (c :: p)
                    | _ => []
                    end)) as Hb.
  { destruct thumb_path as [[|c p]|]; [constructor| |constructor].
    apply basename_go_one_line; [constructor | done]. }
  assert (forall lit : list N, one_line lit -> forall s, one_line s -> one_line (lit ++ s))
    as Happ by (intros; by apply Forall_app).
  set (l1 := u8 "**제품명**: ") in *. set (l2 := u8 "**썸네일**: ") in *.
  set (l4 := u8 "### 제품 설명"). set (l7 := u8 "### 제품 요약").
  set (l10 := u8 "### 특징"). set (l11 := u8 "**◆ 주요 특징 ◆**").
  assert (one_line l1 /\ one_line l2 /\ one_line l4 /\ one_line l7
          /\ one_line l10 /\ one_line l11) as (H1 & H2 & H4 & H7 & H10 & H11).
  { repeat split; apply (bool_decide_unpack _); vm_compute; exact I. }
  assert (Forall one_line feats) as Hf1.
  { eapply Forall_impl; [exact Hf|]. by intros f [_ ?]. }
  assert (one_line []) as H0 by constructor.
  assert (one_line [c_hyphen]) as Hh by (by repeat constructor).
  destruct feats as [|f feats].
  - apply splitlines_join.
    + cbn [app]. repeat (constructor; [by auto|]). constructor.
    + cbn [app]. by rewrite !last_cons_cons.
  - apply splitlines_join.
    + apply Forall_app. split; [|done].
      repeat (constructor; [by auto|]). constructor.
    + intros Hl. rewrite last_app_cons in Hl.
      apply last_Some in Hl as (l' & Hl).
      assert ([] ∈ f :: feats) as Hin.
      { rewrite Hl. apply elem_of_app. right. by left. }
      by apply (proj1 (Forall_forall _ _) Hf) in Hin as [? _].
Qed.

Lemma export_markdown_lines_witness :
  splitlines (export_markdown (u8 "XR-200") (Some (u8 "/tmp/a/thumb.png"))
                (u8 "Edge server") (u8 "Edge server, 2 LAN") [u8 "- CPU: i7"])
  = [ u8 "**제품명**: " ++ u8 "XR-200";
      u8 "**썸네일**: " ++ basename (u8 "/tmp/a/thumb.png");
      []; u8 "### 제품 설명"; u8 "Edge server"; []; u8 "### 제품 요약";
      u8 "Edge server, 2 LAN"; [];
      u8 "### 특징"; u8 "**◆ 주요 특징 ◆**" ]
    ++ [u8 "- CPU: i7"].
Proof.
  apply (export_markdown_lines (u8 "XR-200") (Some (u8 "/tmp/a/thumb.png"))
           (u8 "Edge server") (u8 "Edge server, 2 LAN") [u8 "- CPU: i7"]).
  - apply (bool_decide_unpack _). vm_compute. exact I.
  - apply (bool_decide_unpack _). vm_compute. exact I.
  - apply (bool_decide_unpack _). vm_compute. exact I.
  - apply (bool_decide_unpack _). vm_compute. exact I.
  - apply (bool_decide_unpack _). vm_compute. exact I.
Defined.

(** ** The features text read back *)

Lemma linebreak_is_space c : is_linebreak c = true -> is_space c = true.
Proof.
  unfold is_linebreak, is_space, in_range.
  rewrite !orb_true_iff, !andb_true_iff, !N.leb_le, !N.eqb_eq. lia.
Qed.

Lemma strip_with_fixed p s :
  (forall c, head s = Some c -> p c = false) ->
  (forall c, last s = Some c -> p c = false) ->
  strip_with p s = s.
Proof.
  intros Hh Hl. unfold strip_with.
  assert (lstrip_with p s = s) as ->.
  { destruct s as [|c s]; [done|]. cbn. by rewrite (Hh c eq_refl). }
  unfold rstrip_with. destruct s as [|c s] using rev_ind; [done|].
  rewrite rev_app_distr. cbn [rev app lstrip_with].
  rewrite (Hl c (last_snoc _ _)). cbn [rev]. by rewrite rev_involutive.
Qed.

Lemma feats_lines_stored fs :
  Forall (fun f => marked f /\ one_line f
                   /\ (forall c, last f = Some c -> is_space c = false)) fs ->
  feats_lines (stored_feats fs) = fs.
Proof.
  intros Hf. unfold feats_lines, stored_feats. rewrite splitlines_join.
  - induction Hf as [|f fs (Hm & _ & Hl) _ IH]; [done|].
    cbn [flat_map]. rewrite IH. destruct Hm as [t ->].
    assert (strip (c_hyphen :: c_space :: t) = c_hyphen :: c_space :: t) as ->.
    { apply strip_with_fixed; [by intros c [= <-] | done]. }
    done.
  - eapply Forall_impl; [exact Hf|]. by intros f (_ & ? & _).
  - intros Hl. apply last_Some in Hl as (l' & ->).
    apply Forall_app in Hf as [_ Hf]. apply Forall_cons in Hf as [[[t Ht] _] _].
    discriminate.
Qed.

Section FeaturesText.
Context {U : Unicode} {L : UnicodeLaws U}.

Lemma cleaned_item_line max_len raw y :
  (2 <= max_len)%Z -> bullet_item max_len raw = Some y ->
  marked y /\ one_line y /\ (forall c, last y = Some c -> is_space c = false).
Proof.
  intros Hm Hy. pose proof (bullet_item_marked max_len raw y Hm Hy) as (Hmk & _ & _).
  apply bullet_item_Some in Hy as [-> _]. split; [done|]. split.
  - apply Forall_forall. intros c Hc%cut_chars%tidy_chars.
    destruct Hc as (Hsp & _). destruct (is_linebreak c) eqn:Hlb; [|done].
    by rewrite (Hsp (linebreak_is_space c Hlb)) in Hlb.
  - intros c. apply cut_last. unfold tidy. apply strip_with_last.
Qed.

(** X15: the features that the rule-based build stores as text, joined by
    line feeds, are read back unchanged before an export, whenever the
    loop body of the normalizer leaves each of them as it is. *)
Theorem stored_features_are_read_back
    (pdf_bytes : pdf) (text : list N) (desc_max summary_max : Z) :
  let fs := features (rules_build_fields pdf_bytes text desc_max summary_max
                        FEATURE_MAX) in
  Forall (fun y => bullet_item 64 y = Some y) fs ->
  feats_list (stored_feats fs) = fs.
Proof.
  intros fs Hst. unfold feats_list.
  assert (fs `sublist_of` _normalize_korean_bullets
            (gather (extract_kv_candidates text 500) (extract_bullets text 300)
                    FEATURE_MAX) 64) as Hsub by apply slice_to_sublist.
  rewrite feats_lines_stored.
  - unfold _normalize_korean_bullets. rewrite normalize_loop_stable.
    + cbn [app]. rewrite slice_to_nonneg by done. apply take_ge.
      pose proof (slice_to_len FEATURE_MAX
                    (_normalize_korean_bullets
                       (gather (extract_kv_candidates text 500)
                               (extract_bullets text 300) FEATURE_MAX) 64)
                    ltac:(done)) as Hl.
      unfold len, FEATURE_MAX in Hl. fold fs in Hl.
      change (slice_to 24 _) with fs in Hl. change (Z.to_nat FEATURE_MAX) with 24%nat.
      lia.
    + intros k. cbn. rewrite elem_of_nil. set_solver.
    + cbn [app]. eapply sublist_NoDup; [apply normalize_NoDup|].
      by apply (fmap_sublist lower).
    + by apply Forall_forall.
  - apply Forall_forall. intros f Hf.
    eapply elem_of_sublist in Hf; [|exact Hsub].
    apply normalize_item in Hf as (raw & _ & Hraw).
    by apply (cleaned_item_line 64 raw).
Qed.

End FeaturesText.

Lemma stored_features_are_read_back_witness :
  let fs := features (rules_build_fields (U:=plain_tables) None
                        (u8 "CPU: Intel i7 1185G7
Storage: 2TB SSD
- Dual 10GbE LAN") 40 200 FEATURE_MAX) in
  feats_list (U:=plain_tables) (stored_feats fs) = fs.
Proof.
  apply (stored_features_are_read_back (U:=plain_tables) (L:=plain_tables_laws)).
  apply (bool_decide_unpack _). vm_compute. exact I.
Defined.

(** ** The GPT calls *)

Section GptFacts.
Context {U : Unicode} {C : OpenAI}.
Variable openai_ready : bool.

(** X16: [_gpt] returns only when the session is ready, and then a text
    without white space around it: the text of the first call when that
    call does not raise, else the text of the second call; it raises when
    the session is not ready or when both calls raise. *)
Theorem _gpt_outcome (prompt model : list N) (temperature : Q) (max_out : Z) :
  match _gpt openai_ready prompt model temperature max_out with
  | Ok r =>
      openai_ready = true /\ strip r = r
      /\ match responses_create model prompt temperature max_out with
         | inr t => r = strip (default [] t)
         | inl _ => chat_completions_create model prompt temperature max_out
                    = inr None /\ r = []
                    \/ exists t, chat_completions_create model prompt
                                   temperature max_out = inr (Some t)
                                 /\ r = strip t
         end
  | Raise _ =>
      openai_ready = false
      \/ exists e1 e2,
           responses_create model prompt temperature max_out = inl e1
           /\ chat_completions_create model prompt temperature max_out = inl e2
  end.
Proof.
  unfold _gpt. destruct openai_ready; cbn [negb]; [|by left].
  destruct (responses_create model prompt temperature max_out) as [e1|t].
  - destruct (chat_completions_create model prompt temperature max_out)
      as [e2|[t|]].
    + right. by exists e1, e2.
    + split; [done|]. split; [unfold strip; apply strip_with_idem|].
      right. by exists t.
    + split; [done|]. split; [done|]. by left.
  - split; [done|]. split; [unfold strip; apply strip_with_idem | done].
Qed.

(** X17: when they return, [gpt_generate_name] gives at most 100
    characters and [gpt_generate_description] and [gpt_generate_summary]
    at most [max(0, max_chars)], in each case without a line feed. *)
Theorem gpt_texts_bounded (seed_text : list N) (max_chars : Z) :
  match gpt_generate_name openai_ready seed_text with
  | Ok n => (len n <= 100)%Z /\ (c_lf ∉ n)
  | Raise _ => True
  end
  /\ match gpt_generate_description openai_ready seed_text max_chars with
     | Ok d => (len d <= Z.max 0 max_chars)%Z /\ (c_lf ∉ d)
     | Raise _ => True
     end
  /\ match gpt_generate_summary openai_ready seed_text max_chars with
     | Ok s => (len s <= Z.max 0 max_chars)%Z /\ (c_lf ∉ s)
     | Raise _ => True
     end.
Proof.
  unfold gpt_generate_name, gpt_generate_description, gpt_generate_summary.
  split; [|split].
  - destruct (_gpt _ _ _ _ _) as [reply|]; [|done].
    destruct (splitlines reply); [done|].
    split; [apply (_truncate_len _ 100) | apply _truncate_no_lf].
  - destruct (_gpt _ _ _ _ _) as [reply|]; [|done].
    destruct (splitlines reply); [done|].
    split; [apply _truncate_len | apply _truncate_no_lf].
  - destruct (_gpt _ _ _ _ _) as [reply|]; [|done].
    split; [apply _truncate_len | apply _truncate_no_lf].
Qed.

(** X18: a reply without any text makes [gpt_generate_name] and
    [gpt_generate_description] raise [IndexError], while
    [gpt_generate_summary] returns the empty text and
    [gpt_generate_features] the empty list. *)
Theorem empty_reply_outcomes (seed_text : list N) (max_chars max_items : Z) :
  (forall prompt max_out,
     _gpt openai_ready prompt GPT_DEFAULT_MODEL (1 # 4) max_out = Ok []) ->
  gpt_generate_name openai_ready seed_text = Raise IndexError
  /\ gpt_generate_description openai_ready seed_text max_chars = Raise IndexError
  /\ gpt_generate_summary openai_ready seed_text max_chars = Ok []
  /\ gpt_generate_features openai_ready seed_text max_items = Ok [].
Proof.
  intros H.
  unfold gpt_generate_name, gpt_generate_description, gpt_generate_summary,
    gpt_generate_features.
  rewrite !H. cbn [splitlines splitlines_go].
  split; [done|]. split; [done|]. split.
  - f_equal. unfold _truncate. change (strip []) with (@nil N). apply slice_to_nil.
  - f_equal. apply slice_to_nil.
Qed.

End GptFacts.

Lemma empty_reply_outcomes_witness :
  gpt_generate_name (C:=blank_client) true (u8 "XR-200") = Raise IndexError
  /\ gpt_generate_description (C:=blank_client) true (u8 "XR-200") 40
     = Raise IndexError
  /\ gpt_generate_summary (C:=blank_client) true (u8 "XR-200") 40 = Ok []
  /\ gpt_generate_features (U:=plain_tables) (C:=blank_client) true
       (u8 "XR-200") 24 = Ok [].
Proof.
  apply (empty_reply_outcomes (U:=plain_tables) (C:=blank_client) true
           (u8 "XR-200") 40 24).
  intros prompt max_out. reflexivity.
Defined.

(** X19: when it returns, [gpt_generate_features] gives at most
    [max_items] features, each starting with a hyphen and a space, of at
    most 64 characters, with a Hangul syllable, a digit or a unit token,
    no two of them with the same lower-case form. *)
Theorem gpt_features_are_feature_bullets {U : Unicode} {L : UnicodeLaws U}
    {C : OpenAI} (openai_ready : bool) (seed_text : list N) (max_items : Z) :
  match gpt_generate_features openai_ready seed_text max_items with
  | Ok fs =>
      ((0 <= max_items)%Z -> (len fs <= max_items)%Z)
      /\ Forall (fun f => startswith [c_hyphen; c_space] f = true
                          /\ (len f <= 64)%Z /\ informative f) fs
      /\ NoDup (map lower fs)
  | Raise _ => True
  end.
Proof.
  unfold gpt_generate_features. destruct (_gpt _ _ _ _ _) as [raw|]; [|done].
  split; [intros H; by apply slice_to_len|]. split.
  - apply Forall_forall. intros f Hf%elem_of_slice_to.
    apply normalize_item in Hf as (item & _ & Hitem).
    apply bullet_item_marked in Hitem as (Hm & Hl & Hi); [|lia].
    by apply marked_startswith in Hm.
  - eapply sublist_NoDup; [apply (normalize_NoDup 64 (splitlines raw))|].
    apply (fmap_sublist lower), slice_to_sublist.
Qed.

Lemma gpt_features_are_feature_bullets_witness :
  match gpt_generate_features (U:=plain_tables) (C:=sample_client) true
          (u8 "XR-200") 24 with
  | Ok fs =>
      ((0 <= 24)%Z -> (len fs <= 24)%Z)
      /\ Forall (fun f => startswith [c_hyphen; c_space] f = true
                          /\ (len f <= 64)%Z
                          /\ informative (U:=plain_tables) f) fs
      /\ NoDup (map (lower (Unicode:=plain_tables)) fs)
  | Raise _ => True
  end.
Proof.
  exact (gpt_features_are_feature_bullets (U:=plain_tables)
           (L:=plain_tables_laws) (C:=sample_client) true (u8 "XR-200") 24).
Defined.

(** ** [_extract_json_str] *)

Lemma lstrip_with_suffix p s : exists pre, s = pre ++ lstrip_with p s.
Proof.
  induction s as [|c s [pre IH]]; cbn [lstrip_with]; [by exists []|].
  destruct (p c); [|by exists []]. exists (c :: pre). cbn [app]. by f_equal.
Qed.

Lemma lazy_close_Some s : forall acc g,
  lazy_close acc s = Some g ->
  exists mid rest, s = mid ++ c_rbrace :: rest /\ g = rev acc ++ mid ++ [c_rbrace].
Proof.
  induction s as [|c s IH]; intros acc g; cbn [lazy_close]; [discriminate|].
  destruct ((c =? c_rbrace) && _) eqn:E.
  - intros [= <-]. apply andb_prop in E as [->%N.eqb_eq _].
    exists [], s. split; [done|]. cbn [rev app]. done.
  - intros (mid & rest & -> & ->)%IH. exists (c :: mid), rest.
    split; [done|]. cbn [rev app]. by rewrite <- app_assoc.
Qed.

Lemma fenced_body_Some s g :
  fenced_body s = Some g ->
  exists pre mid rest,
    s = pre ++ g ++ rest /\ g = c_lbrace :: mid ++ [c_rbrace].
Proof.
  unfold fenced_body. destruct (lstrip_with_suffix is_space s) as [pre Hs].
  destruct (lstrip_with is_space s) as [|c s']; [discriminate|].
  destruct (N.eqb_spec c c_lbrace) as [->|]; [|discriminate].
  intros (mid & rest & -> & ->)%lazy_close_Some.
  exists pre, mid, rest. split; [|done]. rewrite Hs. cbn [rev app].
  by rewrite <- app_assoc.
Qed.

Lemma fenced_at_Some s g :
  fenced_at s = Some g ->
  exists pre mid rest,
    s = pre ++ g ++ rest /\ g = c_lbrace :: mid ++ [c_rbrace].
Proof.
  unfold fenced_at. destruct (startswith fence s); [|discriminate].
  assert (forall n, fenced_body (skipn n s) = Some g ->
            exists pre mid rest,
              s = pre ++ g ++ rest /\ g = c_lbrace :: mid ++ [c_rbrace]) as Hb.
  { intros n (pre & mid & rest & Hs & Hg)%fenced_body_Some.
    exists (firstn n s ++ pre), mid, rest. split; [|done].
    rewrite <- (firstn_skipn n s) at 1. rewrite Hs. by rewrite <- app_assoc. }
  destruct (startswith (u8 "json") (skipn 3 s)).
  - destruct (fenced_body (skipn 4 (skipn 3 s))) as [g'|] eqn:E.
    + intros [= ->]. rewrite skipn_skipn in E. by apply Hb in E.
    + apply Hb.
  - apply Hb.
Qed.

Lemma fenced_search_Some s g :
  fenced_search s = Some g ->
  exists pre mid rest,
    s = pre ++ g ++ rest /\ g = c_lbrace :: mid ++ [c_rbrace].
Proof.
  induction s as [|c s IH]; cbn [fenced_search].
  - destruct (fenced_at []) eqn:E; [|discriminate].
    intros [= ->]. by apply fenced_at_Some.
  - destruct (fenced_at (c :: s)) eqn:E.
    + intros [= ->]. by apply fenced_at_Some.
    + intros (pre & mid & rest & -> & Hg)%IH. by exists (c :: pre), mid, rest.
Qed.

Lemma find_Some c s a :
  find c s = Some a -> exists pre t, s = pre ++ c :: t /\ length pre = a.
Proof.
  revert a. induction s as [|x s IH]; intros a; cbn [find]; [discriminate|].
  destruct (N.eqb_spec x c) as [->|_].
  - intros [= <-]. by exists [], s.
  - destruct (find c s) as [i|]; [|discriminate]. intros [= <-].
    destruct (IH i eq_refl) as (pre & t & -> & <-). by exists (x :: pre), t.
Qed.

Lemma rfind_Some c s b :
  rfind c s = Some b -> exists pre t, s = pre ++ c :: t /\ length pre = b.
Proof.
  revert b. induction s as [|x s IH]; intros b; cbn [rfind]; [discriminate|].
  destruct (rfind c s) as [i|].
  - intros [= <-]. destruct (IH i eq_refl) as (pre & t & -> & <-).
    by exists (x :: pre), t.
  - destruct (N.eqb_spec x c) as [->|_]; [|discriminate].
    intros [= <-]. by exists [], s.
Qed.

Lemma find_app c pre t :
  exists a, find c (pre ++ c :: t) = Some a /\ (a <= length pre)%nat.
Proof.
  induction pre as [|x pre (a & IH & Hle)]; cbn [app find length].
  - rewrite N.eqb_refl. exists O. split; [done | lia].
  - destruct (x =? c); [exists O; split; [done | lia]|].
    rewrite IH. exists (S a). split; [done | lia].
Qed.

Lemma rfind_app c pre t :
  exists b, rfind c (pre ++ c :: t) = Some b /\ (length pre <= b)%nat.
Proof.
  induction pre as [|x pre (b & IH & Hle)]; cbn [app rfind length].
  - destruct (rfind c t) as [i|]; [exists (S i); split; [done | lia]|].
    rewrite N.eqb_refl. exists O. split; [done | lia].
  - rewrite IH. exists (S b). split; [done | lia].
Qed.

Lemma braced_strip mid :
  strip (c_lbrace :: mid ++ [c_rbrace]) = c_lbrace :: mid ++ [c_rbrace].
Proof.
  apply strip_with_fixed.
  - by intros c [= <-].
  - intros c. rewrite app_comm_cons, last_snoc. by intros [= <-].
Qed.

(** X20: the text that [_extract_json_str] returns has no white space
    around it; when the stripped input holds an opening brace before its
    last closing brace, the result starts with the opening and ends with
    the closing brace; otherwise it is the stripped input. *)
Theorem extracted_json_is_braced (mixed_text : list N) :
  let s := strip mixed_text in
  let r := _extract_json_str mixed_text in
  strip r = r
  /\ match find c_lbrace s, rfind c_rbrace s with
     | Some start, Some end_ =>
         if (start <? end_)%nat
         then head r = Some c_lbrace /\ last r = Some c_rbrace
         else r = s
     | _, _ => r = s
     end.
Proof.
  intros s r. unfold r, _extract_json_str. fold s.
  assert (strip s = s) as Hss by (unfold s, strip; apply strip_with_idem).
  clearbody s.
  destruct (fenced_search s) as [g|] eqn:Hf.
  - apply fenced_search_Some in Hf as (pre & mid & rest & Hs & ->).
    rewrite braced_strip. split; [apply braced_strip|].
    destruct (find_app c_lbrace pre (mid ++ [c_rbrace] ++ rest)) as (a & Ha & Hla).
    destruct (rfind_app c_rbrace (pre ++ c_lbrace :: mid) rest) as (b & Hb & Hlb).
    assert (s = pre ++ c_lbrace :: mid ++ [c_rbrace] ++ rest) as Hs1.
    { rewrite Hs. cbn [app]. by rewrite <- !app_assoc. }
    assert (s = (pre ++ c_lbrace :: mid) ++ c_rbrace :: rest) as Hs2.
    { rewrite Hs. cbn [app]. by rewrite <- !app_assoc. }
    rewrite <- Hs1 in Ha. rewrite <- Hs2 in Hb. rewrite Ha, Hb.
    rewrite length_app in Hlb. cbn [length] in Hlb.
    destruct (Nat.ltb_spec a b); [|lia].
    split; [done|]. by rewrite app_comm_cons, last_snoc.
  - destruct (find c_lbrace s) as [a|] eqn:Ha; [|done].
    destruct (rfind c_rbrace s) as [b|] eqn:Hb; [|done].
    destruct (Nat.ltb_spec a b) as [Hab|]; [|done].
    apply find_Some in Ha as (pre & t & Hs1 & Hla).
    apply rfind_Some in Hb as (pre' & t' & Hs2 & Hlb).
    assert (firstn (S b - a) (skipn a s) = skipn a pre' ++ [c_rbrace]) as ->.
    { rewrite Hs2. rewrite skipn_app.
      replace (a - length pre')%nat with O by lia. cbn [skipn].
      rewrite firstn_app, length_skipn.
      replace (S b - a - (length pre' - a))%nat with 1%nat by lia.
      rewrite firstn_all2 by (rewrite length_skipn; lia). done. }
    assert (exists u, skipn a pre' = c_lbrace :: u) as [u ->].
    { assert (skipn a s = c_lbrace :: t) as Hsk.
      { rewrite Hs1, skipn_app, <- Hla, Nat.sub_diag, skipn_all. done. }
      rewrite Hs2, skipn_app in Hsk.
      destruct (skipn a pre') as [|x u] eqn:Hu.
      - apply (f_equal length) in Hu. rewrite length_skipn in Hu. cbn in Hu. lia.
      - injection Hsk as -> _. by exists u. }
    rewrite <- app_comm_cons.
    rewrite braced_strip. split; [apply braced_strip|].
    split; [done|]. by rewrite app_comm_cons, last_snoc.
Qed.
